(** * A Redis-backed token bucket: model of [limiter.RedisTokenBucket]

    The limiter keeps no state of its own.  Every call of [AllowRequest]
    reads two keys of a Redis server, refills the bucket in [float64]
    arithmetic, decides, and on the allow path queues two [SET]s in a
    [MULTI]/[EXEC] pipeline.

    The development follows the Go source:
    - [float64] is Rocq's primitive binary64 [float], so sums, products,
      differences and comparisons round and treat NaN as the hardware does;
    - [int64] is [Z] with the wrap-around of Go's subtraction written out;
    - the server is a finite map from keys to string values, together with
      the failures a call may meet;
    - [AllowRequest] is written in a state monad over the world the call
      runs in: clock, server and the history of what was sent and logged.

    - the middleware and the routes of [main] are handlers over a
      [gin.Context], run in a chain until one aborts; the start-up of
      [main] reads its environment from a finite map and stops at the
      first fatal error.

    Definitions come first; the lemmas on binary64, the lemmas on the
    limiter and the properties of the specification follow, then further
    properties of the limiter, of the middleware and of the start-up. *)

From Stdlib Require Import ZArith Floats Lia Bool Ascii String DecimalString.
From stdpp Require Import gmap strings.

Local Open Scope Z_scope.

(** ** Go numbers *)

Module int64.

Definition min_int : Z := - 2 ^ 63.
Definition max_int : Z := 2 ^ 63 - 1.

Definition in_range (z : Z) : Prop := min_int <= z <= max_int.

(** Two's-complement reduction of a mathematical integer. *)
Definition wrap (z : Z) : Z := (z + 2 ^ 63) mod 2 ^ 64 - 2 ^ 63.

(** [a - b] on [int64]. *)
Definition sub (a b : Z) : Z := wrap (a - b).

End int64.

Module float64.

(** [float64(z)] for an [int64] [z]: the nearest binary64 value, ties to
    even. *)
Definition of_int64 (z : Z) : float :=
  SF2Prim (binary_normalize prec emax z 0 false).

(** [x >= y] on [float64]: false as soon as one side is NaN. *)
Definition geb (x y : float) : bool := (y <=? x)%float.

End float64.

Module math.

(** [math.IsNaN], [math.IsInf(x, -1)] and [math.Signbit]. *)
Definition IsNaN (x : float) : bool := is_nan x.
Definition IsNegInf (x : float) : bool := (x =? neg_infinity)%float.
Definition Signbit (x : float) : bool := get_sign x.

(** [math.Min], with the special cases of the Go library:
    [Min(x, -Inf) = Min(-Inf, x) = -Inf], [Min(x, NaN) = Min(NaN, x) = NaN],
    [Min(-0, ±0) = Min(±0, -0) = -0]. *)
Definition Min (x y : float) : float :=
  if IsNegInf x || IsNegInf y then neg_infinity
  else if IsNaN x || IsNaN y then nan
  else if (x =? 0)%float && (x =? y)%float then
    if Signbit x then x else y
  else if (x <? y)%float then x else y.

End math.

(** [time.Duration]: a signed count of nanoseconds. *)
Definition Duration : Type := Z.
Definition Second : Duration := 1000000000.

(** ** The conversions of [strconv]

    go-redis writes a [float64] argument with [strconv.AppendFloat] and an
    [int64] with [strconv.AppendInt]; [StringCmd.Float64] and
    [StringCmd.Int64] read a reply back with [strconv.ParseFloat] and
    [strconv.ParseInt].  A parser answers [None] where the Go function
    returns an error. *)
Class Strconv : Type := {
  ParseFloat : string -> option float;
  FormatFloat : float -> string;
  ParseInt : string -> option Z;
  FormatInt : Z -> string
}.

(** ** A decimal instance of [Strconv]

    The theorems below hold for every [Strconv].  To run the limiter on
    concrete worlds we also give one instance, for the plain decimal
    notation: signs, digits, a fraction, a decimal exponent, [Inf] and
    [NaN].  Integers are printed as [strconv.AppendInt] prints them.  A
    float is printed with its exact decimal expansion: for the whole
    numbers used below these are the digits that
    [AppendFloat(b, f, 'f', -1, 64)] prints, and in every case they read
    back to the same [float64].  Hexadecimal floats and digit separators
    are not recognised. *)

Module DecimalStrconv.

(** The number written by a string of decimal digits. *)
Definition digits (s : string) : option Z :=
  match NilEmpty.uint_of_string s with
  | Some d => Some (Z.of_N (N.of_uint d))
  | None => None
  end.

Definition split_sign (s : string) : bool * string :=
  match s with
  | String "-"%char r => (true, r)
  | String "+"%char r => (false, r)
  | _ => (false, s)
  end.

(** [strconv.ParseInt(s, 10, 64)]. *)
Definition parse_int (s : string) : option Z :=
  let (neg, body) := split_sign s in
  match body, digits body with
  | String _ _, Some n =>
      let z := if neg then - n else n in
      if (int64.min_int <=? z) && (z <=? int64.max_int) then Some z else None
  | _, _ => None
  end.

(** [strconv.AppendInt(b, z, 10)]. *)
Definition format_int (z : Z) : string :=
  NilZero.string_of_int (Z.to_int z).

Definition lower (c : ascii) : ascii :=
  let n := nat_of_ascii c in
  if ((65 <=? n) && (n <=? 90))%nat then ascii_of_nat (n + 32) else c.

Fixpoint lowercase (s : string) : string :=
  match s with
  | EmptyString => EmptyString
  | String c r => String (lower c) (lowercase r)
  end.

(** [cut p s]: the part of [s] before the first character satisfying
    [p], and what follows that character, if there is one. *)
Fixpoint cut (p : ascii -> bool) (s : string) : string * option string :=
  match s with
  | EmptyString => (EmptyString, None)
  | String c r =>
      if p c then (EmptyString, Some r)
      else let (a, b) := cut p r in (String c a, b)
  end.

Definition is_dot (c : ascii) : bool := Ascii.eqb c "."%char.
Definition is_exp (c : ascii) : bool := Ascii.eqb c "e"%char || Ascii.eqb c "E"%char.

(** The binary64 value nearest to [± d * 10 ^ k], for [d > 0]. *)
Definition round_decimal (neg : bool) (d k : Z) : spec_float :=
  if 0 <=? k then
    binary_round prec emax neg (Z.to_pos (d * 10 ^ k)) 0
  else
    let den := 10 ^ (- k) in
    let s := 64 - 4 * k in
    let (q, r) := Z.div_eucl (d * 2 ^ s) den in
    let loc := if r =? 0 then loc_Exact
               else loc_Inexact (2 * r ?= den) in
    binary_round_aux prec emax neg q (- s) loc.

(** [strconv.ParseFloat(s, 64)] on decimal input. *)
Definition parse_float (s : string) : option float :=
  let (neg, body) := split_sign s in
  let low := lowercase body in
  if String.eqb low "inf" || String.eqb low "infinity" then
    Some (if neg then PrimFloat.neg_infinity else PrimFloat.infinity)
  else if String.eqb (lowercase s) "nan" then Some PrimFloat.nan
  else
    let (mant, ex) := cut is_exp body in
    let (int_part, frac) := cut is_dot mant in
    let frac_part := default EmptyString frac in
    let e := match ex with
             | None => Some 0
             | Some t => let (eneg, ebody) := split_sign t in
                         match ebody, digits ebody with
                         | String _ _, Some n => Some (if eneg then - n else n)
                         | _, _ => None
                         end
             end in
    match int_part +:+ frac_part, digits int_part, digits frac_part, e with
    | String _ _, Some _, Some _, Some e =>
        match digits (int_part +:+ frac_part) with
        | Some 0 => Some (if neg then PrimFloat.neg_zero else PrimFloat.zero)
        | Some d =>
            match round_decimal neg d (e - Z.of_nat (String.length frac_part)) with
            | S754_infinity _ => None
            | x => Some (SF2Prim x)
            end
        | None => None
        end
    | _, _, _, _ => None
    end.

Fixpoint zeros (n : nat) : string :=
  match n with
  | O => EmptyString
  | S n => String "0"%char (zeros n)
  end.

(** The decimal digits of [n], neither padded nor empty. *)
Definition decimal (n : Z) : string :=
  NilZero.string_of_uint (N.to_uint (Z.to_N n)).

(** The digits after the point of [n / 10 ^ k], for [0 <= n < 10 ^ k]:
    padded to [k] places, without the zeros at the end. *)
Fixpoint fraction (fuel : nat) (n k : Z) : string :=
  match fuel with
  | O => decimal n
  | S fuel =>
      if (n mod 10 =? 0) && (0 <? k) then fraction fuel (n / 10) (k - 1)
      else
        let t := decimal n in
        zeros (Z.to_nat k - String.length t) +:+ t
  end.

(** [strconv.AppendFloat(b, f, 'f', -1, 64)], with all the digits of
    the value. *)
Definition format_float (f : float) : string :=
  match Prim2SF f with
  | S754_nan => "NaN"
  | S754_infinity s => if s then "-Inf" else "+Inf"
  | S754_zero s => if s then "-0" else "0"
  | S754_finite s m e =>
      (if s then "-" else "") +:+
      (if 0 <=? e then decimal (Zpos m * 2 ^ e)
       else
         let k := - e in
         let n := Zpos m * 5 ^ k in
         let whole := n / 10 ^ k in
         let rest := n mod 10 ^ k in
         if rest =? 0 then decimal whole
         else decimal whole +:+ "." +:+ fraction (Z.to_nat k) rest k)
  end.

Definition conv : Strconv := {|
  ParseFloat := parse_float;
  FormatFloat := format_float;
  ParseInt := parse_int;
  FormatInt := format_int
|}.

End DecimalStrconv.

(** ** The Redis server as the limiter sees it *)

(** A stored string and the expiration its [SET] carried. *)
Record entry : Type := Entry {
  value : string;
  expiration : Duration
}.

(** What [client.Get] brings back: the value, [redis.Nil] for a missing
    key, or any other error (server unreachable, context cancelled). *)
Inductive reply : Type :=
| Value (s : string)
| RedisNil
| RedisError.

(** The value handed to [Set] as an [interface{}]. *)
Inductive arg : Type :=
| ArgFloat (f : float)
| ArgInt (z : Z).

(** A queued [pipe.Set(ctx, key, value, expiration)]. *)
Record cmd : Type := SetCmd {
  cmd_key : string;
  cmd_val : arg;
  cmd_exp : Duration
}.

(** The server: its keys, the keys whose [GET] fails, and whether [EXEC]
    fails. *)
Record Redis : Type := MkRedis {
  kv : gmap string entry;
  get_err : string -> bool;
  exec_err : bool
}.

(** One line of the process log. *)
Inductive log_line : Type :=
| LogUpdateError
| LogRejected (ip : string) (tokens : float).

(** What a call did, in order. *)
Inductive event : Type :=
| EvGet (key : string)
| EvExec (cmds : list cmd) (ok : bool)
| EvLog (l : log_line).

(** The world a call runs in. *)
Record World : Type := MkWorld {
  unix_time : Z;
  server : Redis;
  history : list event
}.

(** ** A state monad over the world *)

Definition M (A : Type) : Type := World -> A * World.

#[global] Instance M_ret : MRet M := fun A a w => (a, w).

#[global] Instance M_bind : MBind M :=
  fun A B k m w => let (a, w') := m w in k a w'.

Definition record (e : event) (w : World) : World :=
  MkWorld (unix_time w) (server w) (history w ++ [e]).

Definition set_kv (m : gmap string entry) (w : World) : World :=
  MkWorld (unix_time w)
          (MkRedis m (get_err (server w)) (exec_err (server w)))
          (history w).

(** [time.Now().Unix()]. *)
Definition Now : M Z := fun w => (unix_time w, w).

(** [log.Printf]. *)
Definition logPrintf (l : log_line) : M unit :=
  fun w => (tt, record (EvLog l) w).

(** [client.Get(ctx, key)]. *)
Definition Get (key : string) : M reply :=
  fun w =>
    let r := server w in
    let ans := if get_err r key then RedisError
               else match kv r !! key with
                    | Some e => Value (value e)
                    | None => RedisNil
                    end in
    (ans, record (EvGet key) w).

Section Client.

Context {conv : Strconv}.

(** [StringCmd.Float64] and [StringCmd.Int64]: the command's error if it
    has one, the parser's verdict otherwise. *)
Definition Float64 (c : M reply) : M (option float) :=
  r ← c;
  mret match r with
       | Value s => ParseFloat s
       | RedisNil | RedisError => None
       end.

Definition Int64 (c : M reply) : M (option Z) :=
  r ← c;
  mret match r with
       | Value s => ParseInt s
       | RedisNil | RedisError => None
       end.

(** How go-redis writes an argument on the wire. *)
Definition appendArg (a : arg) : string :=
  match a with
  | ArgFloat f => FormatFloat f
  | ArgInt z => FormatInt z
  end.

(** The effect of one [SET key value [EX|PX expiration]]. *)
Definition apply_cmd (m : gmap string entry) (c : cmd) : gmap string entry :=
  <[cmd_key c := Entry (appendArg (cmd_val c)) (cmd_exp c)]> m.

(** [pipe.Exec(ctx)] on a [TxPipeline]: the queued commands run as one
    [MULTI]/[EXEC] block, or the call reports an error and the keys stay
    as they were.  The answer is [true] when an error came back. *)
Definition Exec (pipe : list cmd) : M bool :=
  fun w =>
    if exec_err (server w) then (true, record (EvExec pipe false) w)
    else (false,
          record (EvExec pipe true)
                 (set_kv (fold_left apply_cmd pipe (kv (server w))) w)).

End Client.

(** ** The limiter *)

(** The connection a limiter was built on ([redis.Options]). *)
Record Client : Type := NewClient {
  Addr : string;
  DB : Z
}.

Record RedisTokenBucket : Type := MkRedisTokenBucket {
  client : Client;
  capacity : float;
  refillRate : float;
  ttl : Duration
}.

Definition NewRedisTokenBucket (client : Client) (capacity refillRate : float)
    (ttl : Duration) : RedisTokenBucket :=
  {| client := client;
     capacity := capacity;
     refillRate := refillRate;
     ttl := ttl |}.

Definition getIPKey (rtb : RedisTokenBucket) (ip : string) : string :=
  "rate_limit:ip:" +:+ ip.

Section Limiter.

Context {conv : Strconv}.

Definition AllowRequest (rtb : RedisTokenBucket) (ip : string) : M bool :=
  let redisKey := getIPKey rtb ip in
  now ← Now;
  r ← Float64 (Get (redisKey +:+ ":tokens"));
  let tokens := match r with
                | Some t => t
                | None => capacity rtb
                end in
  r ← Int64 (Get (redisKey +:+ ":last_updated"));
  let lastUpdated := match r with
                     | Some t => t
                     | None => now
                     end in
  let elapsed := float64.of_int64 (int64.sub now lastUpdated) in
  let newTokens :=
    math.Min (capacity rtb) (tokens + elapsed * refillRate rtb)%float in
  if float64.geb newTokens 1 then
    let pipe :=
      [ SetCmd (redisKey +:+ ":tokens") (ArgFloat (newTokens - 1)%float)
               (ttl rtb);
        SetCmd (redisKey +:+ ":last_updated") (ArgInt now) (ttl rtb) ] in
    err ← Exec pipe;
    if err : bool then
      logPrintf LogUpdateError;; mret false
    else mret true
  else
    logPrintf (LogRejected ip newTokens);; mret false.

End Limiter.

(** ** What one call computes

    The quantities of the refill step, read off a world as pure functions.
    [AllowRequest_run] below shows that the monadic code computes exactly
    these. *)

Definition tokensKey (ip : string) : string :=
  "rate_limit:ip:" +:+ ip +:+ ":tokens".

Definition lastUpdatedKey (ip : string) : string :=
  "rate_limit:ip:" +:+ ip +:+ ":last_updated".

(** The reply of a [GET] in world [w]. *)
Definition read (w : World) (key : string) : reply :=
  if get_err (server w) key then RedisError
  else match kv (server w) !! key with
       | Some e => Value (value e)
       | None => RedisNil
       end.

(** [refilled = min(capacity, tokens + elapsedSeconds * refillRate)] with
    [elapsedSeconds = now - lastUpdated]. *)
Definition refill (rtb : RedisTokenBucket) (now : Z) (tokens : float)
    (lastUpdated : Z) : float :=
  math.Min (capacity rtb)
    (tokens + float64.of_int64 (int64.sub now lastUpdated) * refillRate rtb)%float.

(** The batch of the allow path. *)
Definition commit (rtb : RedisTokenBucket) (ip : string) (now : Z)
    (newTokens : float) : list cmd :=
  [ SetCmd (tokensKey ip) (ArgFloat (newTokens - 1)%float) (ttl rtb);
    SetCmd (lastUpdatedKey ip) (ArgInt now) (ttl rtb) ].

Section Refill.

Context {conv : Strconv}.

Definition tokens_of (rtb : RedisTokenBucket) (w : World) (ip : string) : float :=
  match read w (tokensKey ip) with
  | Value s => default (capacity rtb) (ParseFloat s)
  | RedisNil | RedisError => capacity rtb
  end.

Definition lastUpdated_of (w : World) (ip : string) : Z :=
  match read w (lastUpdatedKey ip) with
  | Value s => default (unix_time w) (ParseInt s)
  | RedisNil | RedisError => unix_time w
  end.

Definition refilled (rtb : RedisTokenBucket) (w : World) (ip : string) : float :=
  refill rtb (unix_time w) (tokens_of rtb w ip) (lastUpdated_of w ip).

(** The keys after a successful commit. *)
Definition committed (rtb : RedisTokenBucket) (w : World) (ip : string)
    (newTokens : float) : gmap string entry :=
  <[lastUpdatedKey ip := Entry (FormatInt (unix_time w)) (ttl rtb)]>
    (<[tokensKey ip := Entry (FormatFloat (newTokens - 1)%float) (ttl rtb)]>
       (kv (server w))).

(** The three ways a call can end. *)
Definition allowed_world (rtb : RedisTokenBucket) (w : World) (ip : string)
    (newTokens : float) : World :=
  MkWorld (unix_time w)
          (MkRedis (committed rtb w ip newTokens)
                   (get_err (server w)) (exec_err (server w)))
          (history w ++ [EvGet (tokensKey ip); EvGet (lastUpdatedKey ip);
                         EvExec (commit rtb ip (unix_time w) newTokens) true]).

Definition failed_world (rtb : RedisTokenBucket) (w : World) (ip : string)
    (newTokens : float) : World :=
  MkWorld (unix_time w) (server w)
          (history w ++ [EvGet (tokensKey ip); EvGet (lastUpdatedKey ip);
                         EvExec (commit rtb ip (unix_time w) newTokens) false;
                         EvLog LogUpdateError]).

Definition denied_world (w : World) (ip : string) (newTokens : float) : World :=
  MkWorld (unix_time w) (server w)
          (history w ++ [EvGet (tokensKey ip); EvGet (lastUpdatedKey ip);
                         EvLog (LogRejected ip newTokens)]).

(** The end of a call whose refill step computed [newTokens]. *)
Definition settle (rtb : RedisTokenBucket) (w : World) (ip : string)
    (newTokens : float) : bool * World :=
  if float64.geb newTokens 1 then
    if exec_err (server w) then (false, failed_world rtb w ip newTokens)
    else (true, allowed_world rtb w ip newTokens)
  else (false, denied_world w ip newTokens).

(** The world after [n] successive calls for the same identifier. *)
Fixpoint calls (n : nat) (rtb : RedisTokenBucket) (ip : string) (w : World)
    : World :=
  match n with
  | O => w
  | S n => calls n rtb ip (snd (AllowRequest rtb ip w))
  end.

End Refill.

(** What a call added to the history. *)
Definition events_of (w w' : World) : list event :=
  drop (length (history w)) (history w').

(** The keys a list of events read, the batches it sent with their fate,
    and the lines it logged. *)
Definition reads (evs : list event) : list string :=
  flat_map (fun e => match e with EvGet k => [k] | _ => [] end) evs.

Definition batches (evs : list event) : list (list cmd * bool) :=
  flat_map (fun e => match e with EvExec c ok => [(c, ok)] | _ => [] end) evs.

Definition logs (evs : list event) : list log_line :=
  flat_map (fun e => match e with EvLog l => [l] | _ => [] end) evs.

(** ** Worlds to run the limiter on *)

(** A reachable server with no keys, at a given time. *)
Definition fresh_world (now : Z) : World :=
  MkWorld now (MkRedis ∅ (fun _ => false) false) [].

(** The same server once [EXEC] has started to fail. *)
Definition break_exec (w : World) : World :=
  MkWorld (unix_time w) (MkRedis (kv (server w)) (get_err (server w)) true)
          (history w).

(** The same server once the [GET] of one key has started to fail. *)
Definition break_get (key : string) (w : World) : World :=
  MkWorld (unix_time w)
          (MkRedis (kv (server w))
                   (fun k => if String.eqb k key then true else get_err (server w) k)
                   (exec_err (server w)))
          (history w).

(** [SET key value] done by some other client. *)
Definition poke (key val : string) (w : World) : World :=
  set_kv (<[key := Entry val 0]> (kv (server w))) w.

(** [time.Sleep] of a whole number of seconds. *)
Definition sleep (seconds : Z) (w : World) : World :=
  MkWorld (unix_time w + seconds) (server w) (history w).

(** The limiter of the repository's first test, and others around it. *)
Definition test_client : Client := NewClient "localhost:6379" 1.

Definition basic_limiter : RedisTokenBucket :=
  NewRedisTokenBucket test_client 3 1 (10 * Second).

Definition half_limiter : RedisTokenBucket :=
  NewRedisTokenBucket test_client 0.5 1 (10 * Second).

Definition huge_limiter : RedisTokenBucket :=
  NewRedisTokenBucket test_client 0x1p54 1 (10 * Second).

Definition unbounded_rate_limiter : RedisTokenBucket :=
  NewRedisTokenBucket test_client 3 infinity (10 * Second).

Definition test_ip : string := "192.168.1.100".

Definition test_time : Z := 1700000000.

(** The bucket of [test_ip] emptied within the current second. *)
Definition drained_world : World :=
  poke (tokensKey test_ip) "0"
    (poke (lastUpdatedKey test_ip) "1700000000" (fresh_world test_time)).

(** A token count that is no number. *)
Definition garbled_world : World :=
  poke (tokensKey test_ip) "three" (fresh_world test_time).

(** Two tokens, stamped ten seconds in the future. *)
Definition skewed_world : World :=
  poke (tokensKey test_ip) "2"
    (poke (lastUpdatedKey test_ip) "1700000010" (fresh_world test_time)).

(** ** Conditions on a world *)

(** The server answers: neither the two reads of the identifier nor the
    commit fail. *)
Definition healthy (w : World) (ip : string) : Prop :=
  get_err (server w) (tokensKey ip) = false /\
  get_err (server w) (lastUpdatedKey ip) = false /\
  exec_err (server w) = false.

(** The identifier has no stored state. *)
Definition unseen (w : World) (ip : string) : Prop :=
  kv (server w) !! tokensKey ip = None /\
  kv (server w) !! lastUpdatedKey ip = None.

Section Bucket.

Context {conv : Strconv}.

(** At time [now], on a healthy server, the bucket of the identifier reads
    as [x] tokens last updated at [now]. *)
Definition holds (rtb : RedisTokenBucket) (ip : string) (now : Z) (x : float)
    (w : World) : Prop :=
  unix_time w = now /\ healthy w ip /\
  tokens_of rtb w ip = x /\ lastUpdated_of w ip = now.

End Bucket.

(** ** The order of binary64

    [SFcompare] orders the floats that are not NaN like the triples
    (class, exponent, mantissa) below, compared from left to right. *)

Definition rank (x : spec_float) : option (Z * Z * Z) :=
  match x with
  | S754_nan => None
  | S754_infinity true => Some (-2, 0, 0)
  | S754_finite true m e => Some (-1, - e, Zneg m)
  | S754_zero _ => Some (0, 0, 0)
  | S754_finite false m e => Some (1, e, Zpos m)
  | S754_infinity false => Some (2, 0, 0)
  end.

Definition lexcmp (a b : Z * Z * Z) : comparison :=
  let '(a1, a2, a3) := a in
  let '(b1, b2, b3) := b in
  match a1 ?= b1 with
  | Eq => match a2 ?= b2 with
          | Eq => a3 ?= b3
          | c => c
          end
  | c => c
  end.

Definition lex_lt (a b : Z * Z * Z) : Prop :=
  let '(a1, a2, a3) := a in
  let '(b1, b2, b3) := b in
  a1 < b1 \/ (a1 = b1 /\ (a2 < b2 \/ (a2 = b2 /\ a3 < b3))).

Definition lex_le (a b : Z * Z * Z) : Prop := lex_lt a b \/ a = b.

Definition frank (x : float) : option (Z * Z * Z) := rank (Prim2SF x).

(** The rank of the float of a whole number from 0 to 2^53. *)
Definition whole_rank (k : Z) : Z * Z * Z :=
  if k =? 0 then (0, 0, 0)
  else if k =? 2 ^ 53 then (1, 1, 2 ^ 52)
  else (1, Zdigits2 k - 53, k * 2 ^ (53 - Zdigits2 k)).

(** The last character of a string. *)
Fixpoint last_char (s : string) : option ascii :=
  match s with
  | EmptyString => None
  | String c EmptyString => Some c
  | String _ r => last_char r
  end.

(** ** The HTTP side: [RateLimitMiddleware] and the routes of [main] *)

(** What the middleware looks at in a request: its path and the address
    [c.ClientIP()] extracts from it. *)
Record request : Type := MkRequest {
  url_path : string;
  client_ip : string
}.

(** What a handler writes: [c.JSON(code, gin.H{...})] or
    [c.Redirect(code, location)]. *)
Inductive response : Type :=
| JSON (code : Z) (obj : gmap string string)
| Redirect (code : Z) (location : string).

Definition StatusOK : Z := 200.
Definition StatusTemporaryRedirect : Z := 307.
Definition StatusBadRequest : Z := 400.
Definition StatusTooManyRequests : Z := 429.
Definition StatusServiceUnavailable : Z := 503.

(** The entries of the structured log. *)
Inductive logrus_entry : Type :=
| ErrorNoIP (path : string)
| InfoExceeded (ip path : string)
| InfoAllowed (ip path : string)
| ErrorHealthCheck.

(** A [gin.Context]: the request, what was written and logged so far, and
    whether the chain of handlers was aborted. *)
Record Context : Type := MkContext {
  Request : request;
  written : list response;
  logged : list logrus_entry;
  aborted : bool
}.

Definition HandlerFunc : Type := Context -> M Context.

Definition write (r : response) (c : Context) : Context :=
  MkContext (Request c) (written c ++ [r]) (logged c) (aborted c).

Definition logrus (e : logrus_entry) (c : Context) : Context :=
  MkContext (Request c) (written c) (logged c ++ [e]) (aborted c).

(** [c.Abort()]. *)
Definition Abort (c : Context) : Context :=
  MkContext (Request c) (written c) (logged c) true.

(** The context gin hands to the first handler. *)
Definition new_context (r : request) : Context := MkContext r [] [] false.

(** [c.Next()] as the engine runs it: the handlers in order, until one
    aborts. *)
Fixpoint run_handlers (hs : list HandlerFunc) (c : Context) : M Context :=
  match hs with
  | [] => mret c
  | h :: hs => c' ← h c; if aborted c' then mret c' else run_handlers hs c'
  end.

(** [gin.Recovery()]: it only acts on a panic, and nothing here panics. *)
Definition Recovery : HandlerFunc := fun c => mret c.

Section Middleware.

Context {conv : Strconv}.

Definition RateLimitMiddleware (rateLimiter : RedisTokenBucket)
    (successURL failureMessage : string) : HandlerFunc :=
  fun c =>
    let ip := client_ip (Request c) in
    if String.eqb ip "" then
      mret (Abort
              (write (JSON StatusBadRequest {[ "error" := "Unable to determine IP" ]})
                 (logrus (ErrorNoIP (url_path (Request c))) c)))
    else
      allowed ← AllowRequest rateLimiter ip;
      if negb allowed then
        mret (Abort
                (write (JSON StatusTooManyRequests
                          (<["error" := failureMessage]> {[ "ip" := ip ]}))
                   (logrus (InfoExceeded ip (url_path (Request c))) c)))
      else
        mret (Abort
                (write (Redirect StatusTemporaryRedirect successURL)
                   (logrus (InfoAllowed ip (url_path (Request c))) c))).

(** The handlers of [GET /api] and [GET /health]. *)
Definition apiHandler : HandlerFunc :=
  fun c =>
    mret (write (JSON StatusOK {[ "message" := "Request processed successfully!" ]}) c).

Definition healthHandler (ping_err : bool) : HandlerFunc :=
  fun c =>
    if ping_err then
      mret (write (JSON StatusServiceUnavailable
                     (<["status" := "unhealthy"]>
                        {[ "reason" := "Redis connection failed" ]}))
              (logrus ErrorHealthCheck c))
    else mret (write (JSON StatusOK {[ "status" := "healthy" ]}) c).

(** The chains [main] registers: the two middlewares given to [r.Use],
    then the handler of the route. *)
Definition api_chain (rateLimiter : RedisTokenBucket)
    (successURL failureMessage : string) : list HandlerFunc :=
  [Recovery; RateLimitMiddleware rateLimiter successURL failureMessage; apiHandler].

Definition health_chain (rateLimiter : RedisTokenBucket)
    (successURL failureMessage : string) (ping_err : bool) : list HandlerFunc :=
  [Recovery; RateLimitMiddleware rateLimiter successURL failureMessage;
   healthHandler ping_err].

End Middleware.

(** The status code of a response. *)
Definition status (r : response) : Z :=
  match r with
  | JSON code _ => code
  | Redirect code _ => code
  end.

(** ** Start-up: the environment of [main] *)

(** Why [main] stops with [log.Fatal]. *)
Inductive fatal : Type :=
| MissingEnv (key : string)
| InvalidRateLimit (value : string)
| InvalidRefillRate (value : string)
| InvalidTTL (value : string)
| RedisConnectFailed.

Inductive startup (A : Type) : Type :=
| Started (a : A)
| Fatal (f : fatal).
Arguments Started {A} a.
Arguments Fatal {A} f.

#[global] Instance startup_ret : MRet startup := fun A a => Started a.

#[global] Instance startup_bind : MBind startup :=
  fun A B k m => match m with
                 | Started a => k a
                 | Fatal f => Fatal f
                 end.

(** [os.Getenv]: the empty string for a variable that is not set. *)
Definition Getenv (env : gmap string string) (key : string) : string :=
  default "" (env !! key).

Definition getEnvOrFatal (env : gmap string string) (key : string)
    : startup string :=
  let val := Getenv env key in
  if String.eqb val "" then Fatal (MissingEnv key) else Started val.

(** The variables [main] asks for, in its order. *)
Definition required_env : list string :=
  [ "REDIS_HOST"; "REDIS_PORT"; "RATE_LIMIT"; "REFILL_RATE"; "TTL_SECONDS";
    "SUCCESS_URL" ].

(** What [main] has in hand when it starts to serve. *)
Record Setup : Type := MkSetup {
  setup_client : Client;
  setup_limiter : RedisTokenBucket;
  setup_successURL : string;
  setup_failureMessage : string
}.

(** [time.Duration(n) * time.Second] on [int64]. *)
Definition seconds (n : Z) : Duration := int64.wrap (n * Second).

Section Main.

Context {conv : Strconv}.

(** [main] up to the construction of the limiter; [ping_err] tells
    whether [client.Ping] failed. *)
Definition main_setup (env : gmap string string) (ping_err : bool)
    : startup Setup :=
  redisHost ← getEnvOrFatal env "REDIS_HOST";
  redisPort ← getEnvOrFatal env "REDIS_PORT";
  rateLimitStr ← getEnvOrFatal env "RATE_LIMIT";
  refillRateStr ← getEnvOrFatal env "REFILL_RATE";
  ttlSecondsStr ← getEnvOrFatal env "TTL_SECONDS";
  successURL ← getEnvOrFatal env "SUCCESS_URL";
  let failureMessage := "Rate limit exceeded. Please try again later." in
  rateLimit ← match ParseFloat rateLimitStr with
              | Some x => Started x
              | None => Fatal (InvalidRateLimit rateLimitStr)
              end;
  refillRate ← match ParseFloat refillRateStr with
               | Some x => Started x
               | None => Fatal (InvalidRefillRate refillRateStr)
               end;
  ttlSeconds ← match ParseInt ttlSecondsStr with
               | Some n => Started n
               | None => Fatal (InvalidTTL ttlSecondsStr)
               end;
  let client := NewClient (redisHost +:+ ":" +:+ redisPort) 0 in
  if ping_err : bool then Fatal RedisConnectFailed
  else
    Started (MkSetup client
               (NewRedisTokenBucket client rateLimit refillRate (seconds ttlSeconds))
               successURL failureMessage).

End Main.

(** ** Inputs for the HTTP side and for start-up *)

(** The address of the repository's second test. *)
Definition other_ip : string := "192.168.1.200".

(** A limiter whose capacity is no whole number. *)
Definition fractional_limiter : RedisTokenBucket :=
  NewRedisTokenBucket test_client 2.5 0.5 (10 * Second).

(** A token count that reads as NaN. *)
Definition nan_world : World :=
  poke (tokensKey test_ip) "NaN" (fresh_world test_time).

(** Requests of [test_ip] for the two routes. *)
Definition api_request : request := MkRequest "/api" test_ip.
Definition health_request : request := MkRequest "/health" test_ip.

(** An environment with which [main] starts, and two that are wrong. *)
Definition test_env : gmap string string :=
  list_to_map
    [ ("REDIS_HOST", "localhost"); ("REDIS_PORT", "6379"); ("RATE_LIMIT", "3");
      ("REFILL_RATE", "1"); ("TTL_SECONDS", "10");
      ("SUCCESS_URL", "https://example.com/welcome") ].

Definition incomplete_env : gmap string string :=
  delete "TTL_SECONDS" (<["RATE_LIMIT" := "many"]> test_env).

Definition low_env : gmap string string := <["RATE_LIMIT" := "0.5"]> test_env.

Definition test_setup : Setup :=
  MkSetup (NewClient "localhost:6379" 0)
    (NewRedisTokenBucket (NewClient "localhost:6379" 0) 3 1 (seconds 10))
    "https://example.com/welcome"
    "Rate limit exceeded. Please try again later.".

Definition low_setup : Setup :=
  MkSetup (NewClient "localhost:6379" 0)
    (NewRedisTokenBucket (NewClient "localhost:6379" 0) 0.5 1 (seconds 10))
    "https://example.com/welcome"
    "Rate limit exceeded. Please try again later.".

(** The two keys of an identifier expire: Redis drops them. *)
Definition expire (ip : string) (w : World) : World :=
  set_kv (delete (lastUpdatedKey ip) (delete (tokensKey ip) (kv (server w)))) w.

(** The limiter of the repository's second test, and its bucket emptied
    within the current second. *)
Definition ttl_limiter : RedisTokenBucket :=
  NewRedisTokenBucket test_client 2 1 (5 * Second).

Definition drained_other : World :=
  poke (tokensKey other_ip) "0"
    (poke (lastUpdatedKey other_ip) "1700000000" (fresh_world test_time)).

(** * Lemmas on binary64

    [FloatAxioms] specifies the primitive operations through [Prim2SF] and
    the functions of [SpecFloat].  Three groups of facts are needed here:
    the order of floats, read through ranks; what the rounding of a
    subtraction of one can do; and exactness on the whole numbers up to
    2^53. *)

(** ** The order, through ranks *)

Lemma SFcompare_rank (x y : spec_float) :
  SFcompare x y =
    match rank x, rank y with
    | Some a, Some b => Some (lexcmp a b)
    | _, _ => None
    end.
Proof.
  destruct x as [[|]|[|]| |[|] m1 e1], y as [[|]|[|]| |[|] m2 e2];
    cbn [SFcompare rank lexcmp Z.compare Pos.compare]; try reflexivity.
  f_equal. rewrite Z.compare_opp, (Z.compare_antisym e1 e2).
  destruct (e1 ?= e2); reflexivity.
Qed.

Lemma lexcmp_Lt (a b : Z * Z * Z) : lexcmp a b = Lt <-> lex_lt a b.
Proof.
  destruct a as [[a1 a2] a3], b as [[b1 b2] b3]. unfold lexcmp, lex_lt.
  destruct (Z.compare_spec a1 b1), (Z.compare_spec a2 b2), (Z.compare_spec a3 b3);
    split; intros Hx; try discriminate; try reflexivity; lia.
Qed.

Lemma lexcmp_Eq (a b : Z * Z * Z) : lexcmp a b = Eq <-> a = b.
Proof.
  destruct a as [[a1 a2] a3], b as [[b1 b2] b3]. unfold lexcmp.
  destruct (Z.compare_spec a1 b1), (Z.compare_spec a2 b2), (Z.compare_spec a3 b3);
    split; intros Hx; try discriminate; try reflexivity;
    try (injection Hx; lia); subst; reflexivity.
Qed.

Lemma lexcmp_Gt (a b : Z * Z * Z) : lexcmp a b = Gt <-> lex_lt b a.
Proof.
  destruct a as [[a1 a2] a3], b as [[b1 b2] b3]. unfold lexcmp, lex_lt.
  destruct (Z.compare_spec a1 b1), (Z.compare_spec a2 b2), (Z.compare_spec a3 b3);
    split; intros Hx; try discriminate; try reflexivity; lia.
Qed.

Lemma ltb_rank (x y : float) :
  (x <? y)%float = true <->
  exists a b, frank x = Some a /\ frank y = Some b /\ lex_lt a b.
Proof.
  rewrite FloatAxioms.ltb_spec. unfold SFltb, frank. rewrite SFcompare_rank.
  destruct (rank (Prim2SF x)) as [a|], (rank (Prim2SF y)) as [b|]; split;
    try discriminate; try (intros (? & ? & ? & ? & ?); discriminate).
  - destruct (lexcmp a b) eqn:E; try discriminate.
    intros _. exists a, b. rewrite <- lexcmp_Lt. auto.
  - intros (a' & b' & [= <-] & [= <-] & H). apply lexcmp_Lt in H. now rewrite H.
Qed.

Lemma leb_rank (x y : float) :
  (x <=? y)%float = true <->
  exists a b, frank x = Some a /\ frank y = Some b /\ lex_le a b.
Proof.
  rewrite FloatAxioms.leb_spec. unfold SFleb, frank, lex_le. rewrite SFcompare_rank.
  destruct (rank (Prim2SF x)) as [a|], (rank (Prim2SF y)) as [b|]; split;
    try discriminate; try (intros (? & ? & ? & ? & ?); discriminate).
  - destruct (lexcmp a b) eqn:E; try discriminate; intros _; exists a, b.
    + apply lexcmp_Eq in E. auto.
    + apply lexcmp_Lt in E. auto.
  - intros (a' & b' & [= <-] & [= <-] & [H | H]).
    + apply lexcmp_Lt in H. now rewrite H.
    + apply lexcmp_Eq in H. now rewrite H.
Qed.

Lemma eqb_rank (x y : float) :
  (x =? y)%float = true <->
  exists a, frank x = Some a /\ frank y = Some a.
Proof.
  rewrite FloatAxioms.eqb_spec. unfold SFeqb, frank. rewrite SFcompare_rank.
  destruct (rank (Prim2SF x)) as [a|], (rank (Prim2SF y)) as [b|]; split;
    try discriminate; try (intros (? & ? & ?); discriminate).
  - destruct (lexcmp a b) eqn:E; try discriminate; intros _.
    apply lexcmp_Eq in E. subst. eauto.
  - intros (c & [= ->] & [= ->]).
    assert (E : lexcmp c c = Eq) by now apply lexcmp_Eq. now rewrite E.
Qed.

Lemma ltb_false_rank (x y : float) (a b : Z * Z * Z) :
  frank x = Some a -> frank y = Some b ->
  (x <? y)%float = false -> lex_le b a.
Proof.
  intros Ha Hb. rewrite FloatAxioms.ltb_spec. unfold SFltb. rewrite SFcompare_rank.
  unfold frank in *. rewrite Ha, Hb. unfold lex_le.
  destruct (lexcmp a b) eqn:E; try discriminate; intros _.
  - apply lexcmp_Eq in E. auto.
  - apply lexcmp_Gt in E. auto.
Qed.

Lemma lex_le_lt_trans a b c : lex_le a b -> lex_lt b c -> lex_lt a c.
Proof.
  destruct a as [[a1 a2] a3], b as [[b1 b2] b3], c as [[c1 c2] c3].
  unfold lex_le, lex_lt. intros [H | [= -> -> ->]] H'; lia.
Qed.

Lemma lex_le_trans a b c : lex_le a b -> lex_le b c -> lex_le a c.
Proof.
  destruct a as [[a1 a2] a3], b as [[b1 b2] b3], c as [[c1 c2] c3].
  unfold lex_le, lex_lt. intros [H | [= -> -> ->]] [H' | [= -> -> ->]];
    try (left; lia); auto.
Qed.

Lemma lex_lt_not_le a b : lex_lt a b -> ~ lex_le b a.
Proof.
  destruct a as [[a1 a2] a3], b as [[b1 b2] b3].
  unfold lex_le, lex_lt. intros H [H' | [= -> -> ->]]; lia.
Qed.

Lemma leb_false_of_lt (x y : float) (a b : Z * Z * Z) :
  frank x = Some a -> frank y = Some b -> lex_lt a b -> (y <=? x)%float = false.
Proof.
  intros Ha Hb Hlt. destruct (y <=? x)%float eqn:E; [|reflexivity].
  apply leb_rank in E. destruct E as (b' & a' & Hb' & Ha' & Hle).
  rewrite Hb in Hb'. rewrite Ha in Ha'. injection Hb' as <-. injection Ha' as <-.
  exfalso. exact (lex_lt_not_le _ _ Hlt Hle).
Qed.

Lemma not_nan_rank (x : float) :
  math.IsNaN x = false -> exists a, frank x = Some a.
Proof.
  unfold math.IsNaN, is_nan. intros H. apply negb_false_iff in H.
  apply eqb_rank in H. destruct H as (a & Ha & _). eauto.
Qed.

(** [min(c, y) >= 1] fails as soon as [c < 1]. *)
Lemma Min_below_one (c y : float) :
  (c <? 1)%float = true -> float64.geb (math.Min c y) 1 = false.
Proof.
  intros Hc. apply ltb_rank in Hc. destruct Hc as (a & one & Ha & Hone & Hlt).
  unfold math.Min, float64.geb.
  destruct (math.IsNegInf c || math.IsNegInf y); [reflexivity|].
  destruct (math.IsNaN c || math.IsNaN y) eqn:Hnan; [reflexivity|].
  apply orb_false_iff in Hnan. destruct Hnan as [_ Hy].
  apply not_nan_rank in Hy. destruct Hy as (b & Hb).
  assert (Hcle : (1 <=? c)%float = false) by (eapply leb_false_of_lt; eauto).
  destruct ((c =? 0)%float && (c =? y)%float) eqn:Hz.
  - apply andb_true_iff in Hz. destruct Hz as [_ Hz].
    apply eqb_rank in Hz. destruct Hz as (a' & Ha' & Hb').
    rewrite Ha in Ha'. injection Ha' as <-.
    destruct (math.Signbit c); [exact Hcle|].
    eapply leb_false_of_lt; eauto.
  - destruct (c <? y)%float eqn:Hlty; [exact Hcle|].
    eapply leb_false_of_lt; eauto.
    eapply lex_le_lt_trans; [|exact Hlt].
    eapply ltb_false_rank; eauto.
Qed.

(** ** Rounding to binary64, on integers *)

Lemma iter_pos_nat {A} (f : A -> A) (n : positive) (x : A) :
  SpecFloat.iter_pos f n x = Nat.iter (Pos.to_nat n) f x.
Proof.
  revert x. induction n as [n IH | n IH |]; intros x; cbn [SpecFloat.iter_pos].
  - rewrite !IH, Pos2Nat.inj_xI, <- Nat.iter_add, <- Nat.iter_succ_r.
    f_equal. lia.
  - rewrite !IH, Pos2Nat.inj_xO, <- Nat.iter_add. f_equal. lia.
  - reflexivity.
Qed.

Lemma shr_1_nonneg (m : Z) (r s : bool) :
  0 <= m ->
  shr_1 (Build_shr_record m r s) = Build_shr_record (m / 2) (Z.odd m) (r || s).
Proof.
  intros Hm. destruct m as [|p|p]; [reflexivity| |lia].
  destruct p as [p|p|]; cbn [shr_1].
  - f_equal. rewrite Pos2Z.inj_xI. apply Z.div_unique with 1; lia.
  - f_equal. rewrite Pos2Z.inj_xO. apply Z.div_unique with 0; lia.
  - reflexivity.
Qed.

(** [n] right shifts divide by [2 ^ n]; nothing is lost when the shifted
    bits are zero. *)
Lemma shr_iter (n : nat) (m : Z) (r s : bool) :
  0 <= m ->
  exists r' s',
    Nat.iter n shr_1 (Build_shr_record m r s) =
      Build_shr_record (m / 2 ^ Z.of_nat n) r' s' /\
    (m mod 2 ^ Z.of_nat n = 0 -> r = false -> s = false ->
     r' = false /\ s' = false).
Proof.
  revert m r s. induction n as [|n IH]; intros m r s Hm.
  - exists r, s. cbn [Nat.iter]. rewrite Z.pow_0_r, Z.div_1_r. auto.
  - rewrite Nat.iter_succ_r, shr_1_nonneg by assumption.
    destruct (IH (m / 2) (Z.odd m) (r || s)) as (r' & s' & Heq & Hex).
    { apply Z.div_pos; lia. }
    exists r', s'. split.
    + rewrite Heq. f_equal. rewrite Nat2Z.inj_succ, Z.pow_succ_r by lia.
      rewrite Z.div_div by lia. reflexivity.
    + intros Hmod -> ->. rewrite Nat2Z.inj_succ, Z.pow_succ_r in Hmod by lia.
      assert (HP : 0 < 2 ^ Z.of_nat n) by (apply Z.pow_pos_nonneg; lia).
      apply Z.mod_divide in Hmod; [|lia]. destruct Hmod as [k Hk].
      assert (Hhalf : m / 2 = k * 2 ^ Z.of_nat n).
      { symmetry. apply Z.div_unique with 0; lia. }
      apply Hex.
      * rewrite Hhalf. apply Z.mod_mul. lia.
      * rewrite <- Z.negb_even. apply negb_false_iff, Z.even_spec.
        exists (k * 2 ^ Z.of_nat n). lia.
      * reflexivity.
Qed.

Lemma Zdigits2_log2 (p : positive) :
  Zdigits2 (Zpos p) = Z.log2 (Zpos p) + 1.
Proof.
  cbn [Zdigits2]. induction p as [p IH | p IH |]; cbn [digits2_pos].
  - rewrite Pos2Z.inj_succ, IH. destruct p; cbn [Z.log2 Pos.size]; lia.
  - rewrite Pos2Z.inj_succ, IH. destruct p; cbn [Z.log2 Pos.size]; lia.
  - reflexivity.
Qed.

(** The number of binary digits of a positive integer. *)
Lemma Zdigits2_bounds (m : Z) :
  0 < m -> 0 < Zdigits2 m /\ 2 ^ (Zdigits2 m - 1) <= m < 2 ^ Zdigits2 m.
Proof.
  intros Hm. destruct m as [|p|p]; try lia.
  rewrite Zdigits2_log2. pose proof (Z.log2_spec (Zpos p) Hm) as H.
  pose proof (Z.log2_nonneg (Zpos p)).
  replace (Z.log2 (Zpos p) + 1 - 1) with (Z.log2 (Zpos p)) by lia.
  unfold Z.succ in H. lia.
Qed.

Lemma Zdigits2_unique (m d : Z) :
  0 < d -> 2 ^ (d - 1) <= m < 2 ^ d -> Zdigits2 m = d.
Proof.
  intros Hd H. assert (Hm : 0 < m).
  { pose proof (Z.pow_pos_nonneg 2 (d - 1)). lia. }
  destruct m as [|p|p]; try lia. rewrite Zdigits2_log2.
  rewrite (Z.log2_unique (Zpos p) (d - 1)); try lia.
  replace (Z.succ (d - 1)) with d by lia. exact H.
Qed.

Lemma shl_pow2 (p d : positive) :
  Zpos (Pos.iter xO p d) = Zpos p * 2 ^ Zpos d.
Proof.
  rewrite <- Z.shiftl_mul_pow2 by lia. cbn [Z.shiftl].
  apply (Pos.iter_swap_gen _ _ Zpos xO (Z.mul 2)). reflexivity.
Qed.


Lemma fexp64 (d : Z) : fexp prec emax d = Z.max (d - 53) (-1074).
Proof. reflexivity. Qed.

(** A mantissa that already sits at its exponent is kept as it is. *)
Lemma binary_round_aux_keep (sx : bool) (m e : Z) :
  0 < m -> fexp prec emax (Zdigits2 m + e) <= e ->
  binary_round_aux prec emax sx m e loc_Exact =
    if e <=? 971 then S754_finite sx (Z.to_pos m) e else S754_infinity sx.
Proof.
  intros Hm Hf. unfold binary_round_aux, shr_fexp.
  assert (Hs : forall mrs, shr mrs e (fexp prec emax (Zdigits2 m + e) - e) = (mrs, e)).
  { intros mrs. unfold shr.
    destruct (fexp prec emax (Zdigits2 m + e) - e) eqn:E; try reflexivity. lia. }
  rewrite Hs. cbn [shr_record_of_loc shr_m loc_of_shr_record round_nearest_even].
  rewrite Hs. cbn [shr_record_of_loc shr_m].
  destruct m; try lia. reflexivity.
Qed.

(** A mantissa of more than 53 digits, in the normal range, is cut to 53
    digits and rounded; rounding up may carry into the next binade. *)
Lemma binary_round_aux_cut (sx : bool) (m e n : Z) :
  0 < m -> n = Zdigits2 m - 53 -> 0 < n -> - 1074 <= e + n ->
  exists m',
    m / 2 ^ n <= m' <= m / 2 ^ n + 1 /\
    (m mod 2 ^ n = 0 -> m' = m / 2 ^ n) /\
    2 ^ 52 <= m / 2 ^ n < 2 ^ 53 /\
    binary_round_aux prec emax sx m e loc_Exact =
      if m' <? 2 ^ 53 then
        if e + n <=? 971 then S754_finite sx (Z.to_pos m') (e + n)
        else S754_infinity sx
      else
        if e + n + 1 <=? 971 then S754_finite sx (Z.to_pos (2 ^ 52)) (e + n + 1)
        else S754_infinity sx.
Proof.
  intros Hm Hn Hpos Hnorm.
  destruct (Zdigits2_bounds m Hm) as [Hd Hb].
  assert (Hq : 2 ^ 52 <= m / 2 ^ n < 2 ^ 53).
  { replace (Zdigits2 m) with (53 + n) in Hb by lia.
    replace (53 + n - 1) with (52 + n) in Hb by lia.
    rewrite !Z.pow_add_r in Hb by lia.
    assert (0 < 2 ^ n) by (apply Z.pow_pos_nonneg; lia).
    split.
    - apply Z.div_le_lower_bound; lia.
    - apply Z.div_lt_upper_bound; lia. }
  assert (Hf : fexp prec emax (Zdigits2 m + e) - e = n) by (rewrite fexp64; lia).
  unfold binary_round_aux, shr_fexp. rewrite Hf.
  destruct n as [|p|p]; try lia. cbn [shr shr_record_of_loc].
  rewrite iter_pos_nat.
  destruct (shr_iter (Pos.to_nat p) m false false) as (r & s & Heq & Hex); [lia|].
  rewrite positive_nat_Z in Heq, Hex. rewrite Heq. cbn [shr_m].
  set (q := m / 2 ^ Z.pos p) in *.
  set (m' := round_nearest_even q
               (loc_of_shr_record {| shr_m := q; shr_r := r; shr_s := s |})).
  assert (Hm' : q <= m' <= q + 1).
  { subst m'. destruct r, s; cbn [loc_of_shr_record round_nearest_even];
      try destruct (Z.even q); lia. }
  exists m'. split; [exact Hm'|]. split.
  { intros H0. destruct (Hex H0 eq_refl eq_refl) as [-> ->]. reflexivity. }
  split; [exact Hq|].
  destruct (m' <? 2 ^ 53) eqn:Hlt.
  - apply Z.ltb_lt in Hlt.
    assert (Hd' : Zdigits2 m' = 53) by (apply Zdigits2_unique; lia).
    assert (Hs : forall mrs, shr mrs (e + Z.pos p)
                   (fexp prec emax (Zdigits2 m' + (e + Z.pos p)) - (e + Z.pos p))
                 = (mrs, e + Z.pos p)).
    { intros mrs. rewrite Hd', fexp64. unfold shr.
      destruct (Z.max (53 + (e + Z.pos p) - 53) (-1074) - (e + Z.pos p)) eqn:E;
        try reflexivity. lia. }
    rewrite Hs. cbn [shr_m]. destruct m'; try lia. reflexivity.
  - apply Z.ltb_ge in Hlt. assert (Hm2 : m' = 2 ^ 53) by lia.
    rewrite Hm2.
    replace (fexp prec emax (Zdigits2 (2 ^ 53) + (e + Z.pos p)) - (e + Z.pos p))
      with 1 by (rewrite fexp64; change (Zdigits2 (2 ^ 53)) with 54; lia).
    cbn. reflexivity.
Qed.

Lemma shl_align_fst (m : positive) (e e' : Z) :
  e' <= e -> Zpos (fst (shl_align m e e')) = Zpos m * 2 ^ (e - e').
Proof.
  intros H. unfold shl_align. destruct (e' - e) eqn:E; try lia.
  - replace (e - e') with 0 by lia. cbn [fst]. lia.
  - cbn [fst]. rewrite shl_pow2. f_equal. f_equal. lia.
Qed.

(** An integer of at most 53 digits is represented exactly. *)
Lemma binary_round_exact (sx : bool) (p : positive) (e : Z) :
  let d := Zdigits2 (Zpos p) in
  d <= 53 -> - 1074 <= d + e - 53 ->
  binary_round prec emax sx p e =
    if d + e - 53 <=? 971
    then S754_finite sx (Z.to_pos (Zpos p * 2 ^ (53 - d))) (d + e - 53)
    else S754_infinity sx.
Proof.
  intros d Hd Hn. unfold binary_round.
  change (Z.pos (digits2_pos p)) with d.
  assert (Hf : fexp prec emax (d + e) = d + e - 53) by (rewrite fexp64; lia).
  rewrite Hf.
  destruct (shl_align p e (d + e - 53)) as [mz ez] eqn:Hal.
  assert (Hmz : Zpos mz = Zpos p * 2 ^ (53 - d)).
  { pose proof (shl_align_fst p e (d + e - 53)) as H. rewrite Hal in H.
    cbn [fst] in H. rewrite H by lia. f_equal. f_equal. lia. }
  assert (Hez : ez = d + e - 53).
  { unfold shl_align in Hal. destruct (d + e - 53 - e) eqn:E;
      injection Hal as _ <-; lia. }
  subst ez.
  destruct (Zdigits2_bounds (Zpos p) eq_refl) as [Hd0 Hb]. fold d in Hd0, Hb.
  assert (Hdz : Zdigits2 (Zpos mz) = 53).
  { apply Zdigits2_unique; [lia|]. rewrite Hmz.
    assert (0 < 2 ^ (53 - d)) by (apply Z.pow_pos_nonneg; lia).
    replace (2 ^ (53 - 1)) with (2 ^ (d - 1) * 2 ^ (53 - d))
      by (rewrite <- Z.pow_add_r by lia; f_equal; lia).
    replace (2 ^ 53) with (2 ^ d * 2 ^ (53 - d))
      by (rewrite <- Z.pow_add_r by lia; f_equal; lia).
    split; [apply Z.mul_le_mono_nonneg_r | apply Z.mul_lt_mono_pos_r]; lia. }
  rewrite binary_round_aux_keep; [| lia | rewrite Hdz, fexp64; lia].
  rewrite <- Hmz. reflexivity.
Qed.

(** With more than 53 digits no left shift takes place. *)
Lemma binary_round_long (sx : bool) (p : positive) (e : Z) :
  53 < Zdigits2 (Zpos p) -> - 1074 <= Zdigits2 (Zpos p) + e - 53 ->
  binary_round prec emax sx p e = binary_round_aux prec emax sx (Zpos p) e loc_Exact.
Proof.
  intros Hd Hn. unfold binary_round.
  change (Z.pos (digits2_pos p)) with (Zdigits2 (Zpos p)).
  rewrite fexp64. unfold shl_align.
  destruct (Z.max (Zdigits2 (Z.pos p) + e - 53) (-1074) - e) eqn:E;
    try reflexivity. lia.
Qed.

Lemma bounded_ge_one (m : positive) (e : Z) :
  bounded prec emax m e = true -> - 52 <= e ->
  Zdigits2 (Zpos m) = 53 /\ e <= 971 /\ 2 ^ 52 <= Zpos m < 2 ^ 53.
Proof.
  unfold bounded, canonical_mantissa. intros H He.
  apply andb_true_iff in H. destruct H as [Hc Hb].
  apply Z.eqb_eq in Hc. apply Z.leb_le in Hb. rewrite fexp64 in Hc.
  change (Z.pos (digits2_pos m)) with (Zdigits2 (Zpos m)) in Hc.
  assert (Hd : Zdigits2 (Zpos m) = 53) by lia.
  pose proof (Zdigits2_bounds (Zpos m) eq_refl) as [_ Hbd]. rewrite Hd in Hbd.
  change (emax - prec) with 971 in Hb. repeat split; try lia; apply Hbd.
Qed.

(** Up to 2^53 the subtraction of one loses no bit. *)
Lemma sub_one_exact_shift (m p : positive) (e : Z) :
  - 52 <= e -> 2 ^ 52 <= Zpos m < 2 ^ 53 ->
  Zpos m * 2 ^ (e + 52) - 2 ^ 52 = Zpos p ->
  e <= 0 \/ (e = 1 /\ Zpos m = 2 ^ 52) ->
  53 < Zdigits2 (Zpos p) ->
  Zdigits2 (Zpos p) <= e + 105 ->
  Zpos p mod 2 ^ (Zdigits2 (Zpos p) - 53) = 0.
Proof.
  intros He Hm HM [Hsmall | [-> Hm1]] Hlong Hde.
  - set (n := Zdigits2 (Zpos p) - 53) in *.
    apply Z.mod_divide; [apply Z.pow_nonzero; lia|].
    exists (2 ^ (e + 52 - n) * (Zpos m - 2 ^ (- e))).
    rewrite <- HM.
    replace (2 ^ 52) with (2 ^ (e + 52) * 2 ^ (- e))
      by (rewrite <- Z.pow_add_r by lia; f_equal; lia).
    replace (2 ^ (e + 52)) with (2 ^ (e + 52 - n) * 2 ^ n)
      by (rewrite <- Z.pow_add_r by lia; f_equal; lia).
    ring.
  - rewrite Hm1 in HM. cbn in HM. injection HM as <-. reflexivity.
Qed.

(** Subtracting one from a float that is at least one gives a float
    between zero and the float itself, and strictly below it up to 2^53. *)
Lemma SFsub_one (m : positive) (e : Z) :
  bounded prec emax m e = true ->
  lex_le (1, - 52, 2 ^ 52) (1, e, Zpos m) ->
  exists a,
    rank (SF64sub (S754_finite false m e)
                  (S754_finite false 4503599627370496 (-52))) = Some a /\
    lex_le (0, 0, 0) a /\ lex_le a (1, e, Zpos m) /\
    (e <= 0 \/ (e = 1 /\ Zpos m = 2 ^ 52) -> lex_lt a (1, e, Zpos m)).
Proof.
  intros Hb Hle.
  assert (He : - 52 <= e).
  { destruct Hle as [Hlt | Heq]; [unfold lex_lt in Hlt; lia|].
    injection Heq as <- _. lia. }
  destruct (bounded_ge_one m e Hb He) as (Hd & He2 & Hm).
  unfold SF64sub, SFsub. rewrite Z.min_r by lia.
  rewrite shl_align_fst by lia.
  change (fst (shl_align 4503599627370496 (-52) (-52))) with 4503599627370496%positive.
  cbn [cond_Zopp].
  replace (e - -52) with (e + 52) by lia.
  pose proof (sub_one_exact_shift m) as Hexact. specialize (fun p => Hexact p e He Hm).
  set (K := 2 ^ (e + 52)) in *.
  assert (HK : 1 <= K) by (subst K; pose proof (Z.pow_pos_nonneg 2 (e + 52)); lia).
  assert (HA : 2 ^ 52 <= Zpos m * K) by nia.
  (* it is enough to be strictly below, or equal where bits are lost *)
  assert (Hgoal : forall a,
            lex_lt (0, 0, 0) a \/ (0, 0, 0) = a ->
            lex_lt a (1, e, Zpos m) \/
              (a = (1, e, Zpos m) /\ ~ (e <= 0 \/ (e = 1 /\ Zpos m = 2 ^ 52))) ->
            lex_le (0, 0, 0) a /\ lex_le a (1, e, Zpos m) /\
            (e <= 0 \/ (e = 1 /\ Zpos m = 2 ^ 52) -> lex_lt a (1, e, Zpos m))).
  { intros a H0 [Hlt | [Heq Hns]].
    - split; [exact H0|]. split; [left; exact Hlt|]. intros _. exact Hlt.
    - split; [exact H0|]. split; [right; exact Heq|]. intros Hs. contradiction. }
  destruct (Z.pos m * K - 4503599627370496) as [|p|p] eqn:HM; [| |lia].
  { exists (0, 0, 0). cbn [binary_normalize rank]. split; [reflexivity|].
    apply Hgoal; [right; reflexivity|]. left. unfold lex_lt. lia. }
  cbn [binary_normalize]. specialize (Hexact p HM).
  assert (Hp : Zpos p < 2 ^ (e + 105)).
  { replace (e + 105) with (53 + (e + 52)) by lia.
    rewrite Z.pow_add_r by lia. fold K. nia. }
  destruct (Zdigits2_bounds (Zpos p) eq_refl) as [Hd0 Hpb].
  set (d := Zdigits2 (Zpos p)) in *.
  assert (Hde : d <= e + 105).
  { destruct (Z_le_gt_dec d (e + 105)) as [|Hgt]; [assumption|exfalso].
    assert (2 ^ (e + 105) <= 2 ^ (d - 1)) by (apply Z.pow_le_mono_r; lia). lia. }
  destruct (Z_le_gt_dec d 53) as [Hshort | Hlong].
  - rewrite binary_round_exact by (fold d; lia). fold d.
    replace (d + -52 - 53 <=? 971) with true by (symmetry; apply Z.leb_le; lia).
    eexists. cbn [rank]. split; [reflexivity|].
    apply Hgoal; [left; unfold lex_lt; lia|]. left.
    destruct (Z.eq_dec (d + -52 - 53) e) as [Heq | Hne].
    + assert (HK1 : K = 1) by (subst K; replace (e + 52) with 0 by lia; reflexivity).
      rewrite HK1 in HM. rewrite Heq. replace (53 - d) with 0 by lia.
      unfold lex_lt. right. split; [reflexivity|].
      right. split; [lia|]. rewrite Z2Pos.id by lia. lia.
    + unfold lex_lt. right. split; [reflexivity|]. left. lia.
  - rewrite binary_round_long by (fold d; lia).
    destruct (binary_round_aux_cut false (Zpos p) (-52) (d - 53))
      as (m' & Hm' & Hex & Hq & ->); try (fold d; lia).
    destruct (m' <? 2 ^ 53) eqn:Hlt.
    + replace (-52 + (d - 53) <=? 971) with true by (symmetry; apply Z.leb_le; lia).
      eexists. cbn [rank]. split; [reflexivity|].
      apply Hgoal; [left; unfold lex_lt; lia|].
      destruct (Z.eq_dec (-52 + (d - 53)) e) as [Heq | Hne].
      * assert (Hn : d - 53 = e + 52) by lia.
        assert (Hqm : Zpos p / 2 ^ (d - 53) < Zpos m).
        { rewrite Hn. apply Z.div_lt_upper_bound; fold K; lia. }
        rewrite Heq, Z2Pos.id by lia.
        destruct (Z.eq_dec m' (Zpos m)) as [-> | Hne].
        -- right. split; [reflexivity|]. intros Hs.
           specialize (Hex (Hexact Hs ltac:(lia) Hde)). lia.
        -- left. unfold lex_lt. right. split; [reflexivity|]. right. split; lia.
      * left. unfold lex_lt. right. split; [reflexivity|]. left. lia.
    + apply Z.ltb_ge in Hlt.
      assert (Hne : -52 + (d - 53) <> e).
      { intros Heq. assert (Hn : d - 53 = e + 52) by lia.
        assert (Hqm : Zpos p / 2 ^ (d - 53) < Zpos m).
        { rewrite Hn. apply Z.div_lt_upper_bound; fold K; lia. }
        lia. }
      replace (-52 + (d - 53) + 1 <=? 971) with true by (symmetry; apply Z.leb_le; lia).
      eexists. cbn [rank]. split; [reflexivity|].
      apply Hgoal; [left; unfold lex_lt; lia|].
      destruct (Z.eq_dec (-52 + (d - 53) + 1) e) as [Heq | Hne2].
      * rewrite Heq. change (Z.pos (Z.to_pos (2 ^ 52))) with (2 ^ 52).
        destruct (Z.eq_dec (2 ^ 52) (Zpos m)) as [Hm2 | Hne3].
        -- right. split; [rewrite Hm2; reflexivity|]. intros Hs.
           specialize (Hex (Hexact Hs ltac:(lia) Hde)). lia.
        -- left. unfold lex_lt. right. split; [reflexivity|]. right. split; lia.
      * left. unfold lex_lt. right. split; [reflexivity|]. left. lia.
Qed.

Lemma frank_one : frank 1 = Some (1, - 52, 2 ^ 52).
Proof. reflexivity. Qed.

Lemma frank_zero : frank 0 = Some (0, 0, 0).
Proof. reflexivity. Qed.

Lemma frank_2p53 : frank 0x1p53 = Some (1, 1, 2 ^ 52).
Proof. reflexivity. Qed.

Lemma leb_of_rank (x y : float) (a b : Z * Z * Z) :
  frank x = Some a -> frank y = Some b -> lex_le a b -> (x <=? y)%float = true.
Proof. intros Ha Hb H. apply leb_rank. eauto. Qed.

Lemma ltb_of_rank (x y : float) (a b : Z * Z * Z) :
  frank x = Some a -> frank y = Some b -> lex_lt a b -> (x <? y)%float = true.
Proof. intros Ha Hb H. apply ltb_rank. eauto. Qed.

(** [x - 1] for [x >= 1]: never negative, never above [x], and strictly
    below [x] as long as [x <= 2^53]. *)
Lemma sub_one_bounds (x : float) :
  (1 <=? x)%float = true ->
  (0 <=? x - 1)%float = true /\
  (x - 1 <=? x)%float = true /\
  ((x <=? 0x1p53)%float = true -> (x - 1 <? x)%float = true).
Proof.
  intros H. apply leb_rank in H. destruct H as (one & b & Hone & Hb & Hle).
  rewrite frank_one in Hone. injection Hone as <-.
  assert (Hsub : frank (x - 1) = rank (SF64sub (Prim2SF x) (Prim2SF 1)))
    by (unfold frank; now rewrite sub_spec).
  pose proof (Prim2SF_valid x) as Hv. unfold frank in Hb.
  destruct (Prim2SF x) as [s|[|]| |[|] m e] eqn:Ex; cbn [rank] in Hb;
    try discriminate; injection Hb as <-;
    try (destruct Hle as [Hlt | Heq]; [unfold lex_lt in Hlt; lia | discriminate]).
  - (* +Inf *)
    assert (Hr : frank (x - 1) = Some (2, 0, 0)) by (rewrite Hsub; reflexivity).
    assert (Hx : frank x = Some (2, 0, 0)) by (unfold frank; now rewrite Ex).
    split; [|split].
    + eapply leb_of_rank; [apply frank_zero | exact Hr | left; unfold lex_lt; lia].
    + eapply leb_of_rank; [exact Hr | exact Hx | right; reflexivity].
    + intros H53. apply leb_rank in H53.
      destruct H53 as (a & c & Ha & Hc & Hac). rewrite Hx in Ha.
      rewrite frank_2p53 in Hc. injection Ha as <-. injection Hc as <-.
      destruct Hac as [Hlt | Heq]; [unfold lex_lt in Hlt; lia | discriminate].
  - (* finite and positive *)
    destruct (SFsub_one m e Hv Hle) as (a & Ha & H0 & Hle' & Hstrict).
    assert (Hr : frank (x - 1) = Some a) by (rewrite Hsub; exact Ha).
    assert (Hx : frank x = Some (1, e, Zpos m)) by (unfold frank; now rewrite Ex).
    split; [|split].
    + eapply leb_of_rank; [apply frank_zero | exact Hr | exact H0].
    + eapply leb_of_rank; [exact Hr | exact Hx | exact Hle'].
    + intros H53. apply leb_rank in H53.
      destruct H53 as (a' & c & Ha' & Hc & Hac). rewrite Hx in Ha'.
      rewrite frank_2p53 in Hc. injection Ha' as <-. injection Hc as <-.
      eapply ltb_of_rank; [exact Hr | exact Hx |]. apply Hstrict.
      assert (He : - 52 <= e).
      { destruct Hle as [Hlt | Heq]; [unfold lex_lt in Hlt; lia|].
        injection Heq as <- _. lia. }
      destruct (bounded_ge_one m e Hv He) as (_ & _ & Hm).
      destruct Hac as [Hlt | Heq]; [unfold lex_lt in Hlt; lia|].
      injection Heq as -> ->. lia.
Qed.

Lemma leb_trans (x y z : float) :
  (x <=? y)%float = true -> (y <=? z)%float = true -> (x <=? z)%float = true.
Proof.
  intros H1 H2. apply leb_rank in H1, H2.
  destruct H1 as (a & b & Ha & Hb & Hab), H2 as (b' & c & Hb' & Hc & Hbc).
  rewrite Hb in Hb'. injection Hb' as <-.
  eapply leb_of_rank; eauto using lex_le_trans.
Qed.

Lemma ltb_leb_trans (x y z : float) :
  (x <? y)%float = true -> (y <=? z)%float = true -> (x <? z)%float = true.
Proof.
  intros H1 H2. apply ltb_rank in H1. apply leb_rank in H2.
  destruct H1 as (a & b & Ha & Hb & Hab), H2 as (b' & c & Hb' & Hc & Hbc).
  rewrite Hb in Hb'. injection Hb' as <-.
  eapply ltb_of_rank; eauto.
  destruct Hbc as [Hlt | <-]; [|exact Hab].
  destruct a as [[a1 a2] a3], b as [[b1 b2] b3], c as [[c1 c2] c3].
  unfold lex_lt in *. lia.
Qed.

(** A refill that reaches one is a number, and at most the capacity. *)
Lemma Min_le_capacity (c y : float) :
  float64.geb (math.Min c y) 1 = true ->
  (math.Min c y <=? c)%float = true.
Proof.
  unfold math.Min, float64.geb.
  destruct (math.IsNegInf c || math.IsNegInf y); [discriminate|].
  destruct (math.IsNaN c || math.IsNaN y) eqn:Hnan; [discriminate|].
  apply orb_false_iff in Hnan. destruct Hnan as [Hc Hy].
  apply not_nan_rank in Hc, Hy. destruct Hc as (a & Ha), Hy as (b & Hb).
  assert (Hcc : (c <=? c)%float = true)
    by (eapply leb_of_rank; eauto; right; reflexivity).
  destruct ((c =? 0)%float && (c =? y)%float) eqn:Hz.
  - apply andb_true_iff in Hz. destruct Hz as [_ Hz].
    apply eqb_rank in Hz. destruct Hz as (a' & Ha' & Hb').
    destruct (math.Signbit c); intros _; [exact Hcc|].
    eapply leb_of_rank; eauto. right. reflexivity.
  - destruct (c <? y)%float eqn:Hlt; intros _; [exact Hcc|].
    eapply leb_of_rank; eauto. eapply ltb_false_rank; eauto.
Qed.

(** ** Whole numbers up to 2^53 *)

Lemma SFsub_one_eq (m : positive) (e : Z) :
  - 52 <= e ->
  SF64sub (S754_finite false m e) (S754_finite false 4503599627370496 (-52)) =
    binary_normalize prec emax (Zpos m * 2 ^ (e + 52) - 2 ^ 52) (-52) false.
Proof.
  intros He. unfold SF64sub, SFsub. rewrite Z.min_r by lia.
  rewrite shl_align_fst by lia.
  change (fst (shl_align 4503599627370496 (-52) (-52))) with 4503599627370496%positive.
  cbn [cond_Zopp]. replace (e - -52) with (e + 52) by lia. reflexivity.
Qed.

(** The float of a whole number [0 < k < 2^53]: [k] shifted to 53 digits. *)
Lemma normalize_whole (k : Z) :
  0 < k < 2 ^ 53 ->
  binary_normalize prec emax k 0 false =
    S754_finite false (Z.to_pos (k * 2 ^ (53 - Zdigits2 k))) (Zdigits2 k - 53).
Proof.
  intros Hk. destruct k as [|p|p]; try lia. cbn [binary_normalize].
  destruct (Zdigits2_bounds (Zpos p) eq_refl) as [Hd0 Hb].
  assert (Hd : Zdigits2 (Zpos p) <= 53).
  { destruct (Z_le_gt_dec (Zdigits2 (Zpos p)) 53) as [|Hgt]; [assumption|exfalso].
    assert (2 ^ 53 <= 2 ^ (Zdigits2 (Zpos p) - 1)) by (apply Z.pow_le_mono_r; lia).
    lia. }
  rewrite binary_round_exact by lia.
  replace (Zdigits2 (Z.pos p) + 0 - 53 <=? 971) with true
    by (symmetry; apply Z.leb_le; lia).
  f_equal; lia.
Qed.

(** The same number written with 52 more binary places. *)
Lemma normalize_scaled (j : Z) :
  0 <= j < 2 ^ 53 ->
  binary_normalize prec emax (j * 2 ^ 52) (-52) false =
    binary_normalize prec emax j 0 false.
Proof.
  intros Hj. destruct (Z.eq_dec j 0) as [-> | H0]; [reflexivity|].
  destruct (Z.eq_dec j 1) as [-> | H1]; [reflexivity|].
  rewrite normalize_whole by lia.
  destruct (Zdigits2_bounds j ltac:(lia)) as [Hd0 Hb].
  set (d := Zdigits2 j) in *.
  assert (Hd2 : 2 <= d).
  { destruct (Z_le_gt_dec 2 d) as [|Hgt]; [assumption|exfalso].
    assert (d = 1) by lia. replace d with 1 in Hb by lia. cbn in Hb. lia. }
  assert (Hd : d <= 53).
  { destruct (Z_le_gt_dec d 53) as [|Hgt]; [assumption|exfalso].
    assert (2 ^ 53 <= 2 ^ (d - 1)) by (apply Z.pow_le_mono_r; lia). lia. }
  assert (Hdig : Zdigits2 (j * 2 ^ 52) = d + 52).
  { apply Zdigits2_unique; [lia|].
    replace (d + 52 - 1) with (d - 1 + 52) by lia.
    rewrite !Z.pow_add_r by lia. lia. }
  assert (Hsplit : j * 2 ^ 52 = j * 2 ^ (53 - d) * 2 ^ (d - 1)).
  { rewrite <- Z.mul_assoc, <- Z.pow_add_r by lia. f_equal. f_equal. lia. }
  assert (Hpos : 0 < 2 ^ (d - 1)) by (apply Z.pow_pos_nonneg; lia).
  assert (Hdiv : j * 2 ^ 52 / 2 ^ (d - 1) = j * 2 ^ (53 - d))
    by (rewrite Hsplit; apply Z.div_mul; lia).
  assert (Hmod : (j * 2 ^ 52) mod 2 ^ (d - 1) = 0)
    by (rewrite Hsplit; apply Z.mod_mul; lia).
  destruct (j * 2 ^ 52) as [|p|p] eqn:Ep; try lia.
  cbn [binary_normalize].
  rewrite binary_round_long by (rewrite Hdig; lia).
  destruct (binary_round_aux_cut false (Zpos p) (-52) (d - 1))
    as (m' & _ & Hex & Hq & ->); try (rewrite ?Hdig; lia).
  rewrite (Hex Hmod), Hdiv. rewrite Hdiv in Hq.
  replace (j * 2 ^ (53 - d) <? 2 ^ 53) with true by (symmetry; apply Z.ltb_lt; lia).
  replace (-52 + (d - 1) <=? 971) with true by (symmetry; apply Z.leb_le; lia).
  f_equal. lia.
Qed.

Lemma whole_valid (k : Z) :
  0 <= k <= 2 ^ 53 ->
  valid_binary (binary_normalize prec emax k 0 false) = true.
Proof.
  intros Hk. destruct (Z.eq_dec k 0) as [-> | H0]; [reflexivity|].
  destruct (Z.eq_dec k (2 ^ 53)) as [-> | H1]; [reflexivity|].
  rewrite normalize_whole by lia.
  destruct (Zdigits2_bounds k ltac:(lia)) as [Hd0 Hb].
  set (d := Zdigits2 k) in *.
  assert (Hd : d <= 53).
  { destruct (Z_le_gt_dec d 53) as [|Hgt]; [assumption|exfalso].
    assert (2 ^ 53 <= 2 ^ (d - 1)) by (apply Z.pow_le_mono_r; lia). lia. }
  assert (Hpos : 0 < 2 ^ (53 - d)) by (apply Z.pow_pos_nonneg; lia).
  assert (Hdig : Zdigits2 (k * 2 ^ (53 - d)) = 53).
  { apply Zdigits2_unique; [lia|].
    replace (2 ^ (53 - 1)) with (2 ^ (d - 1) * 2 ^ (53 - d))
      by (rewrite <- Z.pow_add_r by lia; f_equal; lia).
    replace (2 ^ 53) with (2 ^ d * 2 ^ (53 - d))
      by (rewrite <- Z.pow_add_r by lia; f_equal; lia).
    split; [apply Z.mul_le_mono_nonneg_r | apply Z.mul_lt_mono_pos_r]; lia. }
  cbn [valid_binary]. unfold bounded, canonical_mantissa.
  change (Z.pos (digits2_pos (Z.to_pos (k * 2 ^ (53 - d)))))
    with (Zdigits2 (Zpos (Z.to_pos (k * 2 ^ (53 - d))))).
  rewrite Z2Pos.id by lia. rewrite Hdig, fexp64.
  apply andb_true_iff.
  split; [apply Z.eqb_eq; lia | apply Z.leb_le; change (emax - prec) with 971; lia].
Qed.

Lemma Prim2SF_of_int64 (k : Z) :
  0 <= k <= 2 ^ 53 ->
  Prim2SF (float64.of_int64 k) = binary_normalize prec emax k 0 false.
Proof. intros Hk. apply Prim2SF_SF2Prim, whole_valid, Hk. Qed.

Lemma Prim2SF_one : Prim2SF 1 = S754_finite false 4503599627370496 (-52).
Proof. reflexivity. Qed.

(** On whole numbers up to 2^53, [float64] subtracts one exactly. *)
Lemma of_int64_sub_one (k : Z) :
  1 <= k <= 2 ^ 53 ->
  (float64.of_int64 k - 1)%float = float64.of_int64 (k - 1).
Proof.
  intros Hk. apply Prim2SF_inj.
  rewrite sub_spec, !Prim2SF_of_int64, Prim2SF_one by lia.
  destruct (Z.eq_dec k (2 ^ 53)) as [-> | Hne]; [reflexivity|].
  rewrite (normalize_whole k) by lia.
  destruct (Zdigits2_bounds k ltac:(lia)) as [Hd0 Hb].
  set (d := Zdigits2 k) in *.
  assert (Hd : d <= 53).
  { destruct (Z_le_gt_dec d 53) as [|Hgt]; [assumption|exfalso].
    assert (2 ^ 53 <= 2 ^ (d - 1)) by (apply Z.pow_le_mono_r; lia). lia. }
  assert (Hpos : 0 < 2 ^ (53 - d)) by (apply Z.pow_pos_nonneg; lia).
  rewrite SFsub_one_eq by lia. rewrite Z2Pos.id by lia.
  replace (k * 2 ^ (53 - d) * 2 ^ (d - 53 + 52) - 2 ^ 52) with ((k - 1) * 2 ^ 52).
  - apply normalize_scaled. lia.
  - rewrite <- Z.mul_assoc, <- Z.pow_add_r by lia.
    replace (53 - d + (d - 53 + 52)) with 52 by lia. ring.
Qed.

Lemma frank_of_int64 (k : Z) :
  0 < k < 2 ^ 53 ->
  frank (float64.of_int64 k) =
    Some (1, Zdigits2 k - 53, k * 2 ^ (53 - Zdigits2 k)).
Proof.
  intros Hk. unfold frank. rewrite Prim2SF_of_int64, normalize_whole by lia.
  cbn [rank]. rewrite Z2Pos.id; [reflexivity|].
  destruct (Zdigits2_bounds k ltac:(lia)) as [Hd0 Hb].
  assert (0 < 2 ^ (53 - Zdigits2 k)); [|lia].
  apply Z.pow_pos_nonneg; [lia|].
  destruct (Z_le_gt_dec (Zdigits2 k) 53) as [|Hgt]; [lia|exfalso].
  assert (2 ^ 53 <= 2 ^ (Zdigits2 k - 1)) by (apply Z.pow_le_mono_r; lia). lia.
Qed.

Lemma frank_whole (k : Z) :
  0 <= k <= 2 ^ 53 -> frank (float64.of_int64 k) = Some (whole_rank k).
Proof.
  intros Hk. destruct (Z.eq_dec k 0) as [-> | H0]; [reflexivity|].
  destruct (Z.eq_dec k (2 ^ 53)) as [-> | H1]; [reflexivity|].
  rewrite frank_of_int64 by lia. unfold whole_rank.
  destruct (Z.eqb_spec k 0); [lia|].
  destruct (Z.eqb_spec k (2 ^ 53)); [lia | reflexivity].
Qed.

Lemma Zdigits2_mono (j k : Z) : 0 < j <= k -> Zdigits2 j <= Zdigits2 k.
Proof.
  intros H. destruct j as [|p|p], k as [|q|q]; try lia.
  rewrite !Zdigits2_log2. pose proof (Z.log2_le_mono (Zpos p) (Zpos q)). lia.
Qed.

Lemma Zdigits2_below (k : Z) : 0 < k < 2 ^ 53 -> 0 < Zdigits2 k <= 53.
Proof.
  intros Hk. destruct (Zdigits2_bounds k ltac:(lia)) as [Hd0 Hb].
  split; [assumption|].
  destruct (Z_le_gt_dec (Zdigits2 k) 53) as [|Hgt]; [assumption|exfalso].
  assert (2 ^ 53 <= 2 ^ (Zdigits2 k - 1)) by (apply Z.pow_le_mono_r; lia). lia.
Qed.

Lemma whole_rank_mono (j k : Z) :
  0 <= j <= k -> k <= 2 ^ 53 -> lex_le (whole_rank j) (whole_rank k).
Proof.
  intros Hj Hk. unfold whole_rank.
  destruct (Z.eqb_spec j 0) as [-> | Hj0], (Z.eqb_spec k 0) as [-> | Hk0]; try lia.
  - right. reflexivity.
  - left. destruct (k =? 2 ^ 53); unfold lex_lt; lia.
  - destruct (Z.eqb_spec j (2 ^ 53)) as [-> | Hj1],
             (Z.eqb_spec k (2 ^ 53)) as [-> | Hk1]; try lia.
    + right. reflexivity.
    + pose proof (Zdigits2_below j ltac:(lia)).
      left. unfold lex_lt. right. split; [reflexivity|]. left. lia.
    + pose proof (Zdigits2_mono j k ltac:(lia)) as Hd.
      pose proof (Zdigits2_below k ltac:(lia)) as Hdk.
      destruct (Z.eq_dec (Zdigits2 j) (Zdigits2 k)) as [Heq | Hne].
      * rewrite Heq. destruct (Z.eq_dec j k) as [-> | Hjk]; [right; reflexivity|].
        left. unfold lex_lt. right. split; [reflexivity|].
        right. split; [reflexivity|].
        apply Z.mul_lt_mono_pos_r; [apply Z.pow_pos_nonneg|]; lia.
      * left. unfold lex_lt. right. split; [reflexivity|]. left. lia.
Qed.

(** [float64(k) >= 1] exactly when [k >= 1]. *)
Lemma of_int64_geb_one (k : Z) :
  0 <= k <= 2 ^ 53 -> float64.geb (float64.of_int64 k) 1 = (1 <=? k).
Proof.
  intros Hk. unfold float64.geb. destruct (Z.leb_spec 1 k) as [H1 | H1].
  - eapply leb_of_rank; [apply frank_one | apply frank_whole; lia |].
    change (1, -52, 2 ^ 52) with (whole_rank 1). apply whole_rank_mono; lia.
  - replace k with 0 by lia. reflexivity.
Qed.

Lemma eqb_false_of_rank (x y : float) (a b : Z * Z * Z) :
  frank x = Some a -> frank y = Some b -> a <> b -> (x =? y)%float = false.
Proof.
  intros Ha Hb Hne. destruct (x =? y)%float eqn:E; [|reflexivity].
  apply eqb_rank in E. destruct E as (c & Hc & Hc'). congruence.
Qed.

Lemma ltb_false_of_le (x y : float) (a b : Z * Z * Z) :
  frank x = Some a -> frank y = Some b -> lex_le b a -> (x <? y)%float = false.
Proof.
  intros Ha Hb Hle. destruct (x <? y)%float eqn:E; [|reflexivity].
  apply ltb_rank in E. destruct E as (a' & b' & Ha' & Hb' & Hlt).
  rewrite Ha in Ha'. rewrite Hb in Hb'. injection Ha' as <-. injection Hb' as <-.
  exfalso. exact (lex_lt_not_le _ _ Hlt Hle).
Qed.

Lemma whole_rank_sign (k : Z) : 0 <= fst (fst (whole_rank k)).
Proof. unfold whole_rank. destruct (k =? 0), (k =? 2 ^ 53); cbn; lia. Qed.

Lemma whole_not_special (k : Z) :
  0 <= k <= 2 ^ 53 ->
  math.IsNegInf (float64.of_int64 k) = false /\
  math.IsNaN (float64.of_int64 k) = false.
Proof.
  intros Hk. pose proof (frank_whole k Hk) as Hr. split.
  - unfold math.IsNegInf.
    eapply eqb_false_of_rank; [exact Hr | reflexivity |].
    pose proof (whole_rank_sign k). intros E. rewrite E in H. cbn in H. lia.
  - unfold math.IsNaN, is_nan. apply negb_false_iff, eqb_rank. eauto.
Qed.

(** Below the capacity, [min] returns the token count. *)
Lemma Min_whole (C k : Z) :
  0 <= k <= C -> C <= 2 ^ 53 ->
  math.Min (float64.of_int64 C) (float64.of_int64 k) = float64.of_int64 k.
Proof.
  intros Hk HC.
  destruct (Z.eq_dec C 0) as [-> | HC0].
  { replace k with 0 by lia. reflexivity. }
  unfold math.Min.
  destruct (whole_not_special C ltac:(lia)) as [-> ->].
  destruct (whole_not_special k ltac:(lia)) as [-> ->]. cbn [orb].
  replace (float64.of_int64 C =? 0)%float with false.
  - cbn [andb].
    rewrite (ltb_false_of_le _ _ (whole_rank C) (whole_rank k));
      try reflexivity; try (apply frank_whole; lia).
    apply whole_rank_mono; lia.
  - symmetry. eapply eqb_false_of_rank;
      [apply frank_whole; lia | apply frank_zero |].
    unfold whole_rank. destruct (Z.eqb_spec C 0); [lia|].
    destruct (C =? 2 ^ 53); discriminate.
Qed.

Lemma finite_SF (r : float) :
  is_finite r = true ->
  (exists s, Prim2SF r = S754_zero s) \/ (exists s m e, Prim2SF r = S754_finite s m e).
Proof.
  unfold is_finite, is_nan, is_infinity. intros H.
  apply negb_true_iff, orb_false_iff in H. destruct H as [Hn Hi].
  rewrite FloatAxioms.eqb_spec in Hn. rewrite FloatAxioms.eqb_spec, abs_spec in Hi.
  destruct (Prim2SF r) as [s|s| |s m e]; eauto.
  - destruct s; discriminate.
  - discriminate.
Qed.

(** No elapsed time adds nothing, whatever the finite refill rate. *)
Lemma add_no_refill (k : Z) (r : float) :
  0 <= k <= 2 ^ 53 -> is_finite r = true ->
  (float64.of_int64 k + float64.of_int64 0 * r)%float = float64.of_int64 k.
Proof.
  intros Hk Hr. apply Prim2SF_inj.
  rewrite add_spec, mul_spec, !Prim2SF_of_int64 by lia.
  assert (Hz : exists s, SF64mul (binary_normalize prec emax 0 0 false) (Prim2SF r)
                         = S754_zero s).
  { destruct (finite_SF r Hr) as [(s & ->) | (s & m & e & ->)]; cbn; eauto. }
  destruct Hz as (s & ->).
  destruct (Z.eq_dec k 0) as [-> | H0]; [destruct s; reflexivity|].
  destruct (Z.eq_dec k (2 ^ 53)) as [-> | H1]; [reflexivity|].
  rewrite normalize_whole by lia. reflexivity.
Qed.

(** * Lemmas on the limiter *)

(** ** Integers and keys *)

Lemma int64_sub_exact (a b : Z) :
  int64.in_range (a - b) -> int64.sub a b = a - b.
Proof.
  unfold int64.in_range, int64.min_int, int64.max_int, int64.sub, int64.wrap.
  intros H. rewrite Z.mod_small by lia. lia.
Qed.

Lemma int64_sub_diag (a : Z) : int64.sub a a = 0.
Proof. unfold int64.sub, int64.wrap. rewrite Z.sub_diag. reflexivity. Qed.

Lemma tokensKey_eq (rtb : RedisTokenBucket) (ip : string) :
  getIPKey rtb ip +:+ ":tokens" = tokensKey ip.
Proof. reflexivity. Qed.

Lemma lastUpdatedKey_eq (rtb : RedisTokenBucket) (ip : string) :
  getIPKey rtb ip +:+ ":last_updated" = lastUpdatedKey ip.
Proof. reflexivity. Qed.

Lemma last_char_app (s t : string) :
  t <> EmptyString -> last_char (s +:+ t) = last_char t.
Proof.
  intros Ht. induction s as [|c s IH]; [reflexivity|].
  rewrite <- IH. change (String c s +:+ t) with (String c (s +:+ t)).
  cbn [last_char]. destruct (s +:+ t) eqn:E; [|reflexivity].
  destruct s; cbn in E; [contradiction | discriminate].
Qed.

Lemma last_char_key (ip suffix : string) :
  suffix <> EmptyString ->
  last_char ("rate_limit:ip:" +:+ ip +:+ suffix) = last_char suffix.
Proof.
  intros H. rewrite last_char_app, last_char_app; trivial.
  destruct ip, suffix; try discriminate. contradiction.
Qed.

(** The two keys of an identifier never coincide, nor does the token key
    of one identifier coincide with the timestamp key of another. *)
Lemma tokensKey_neq_lastUpdatedKey (ip ip' : string) :
  tokensKey ip <> lastUpdatedKey ip'.
Proof.
  intros H. apply (f_equal last_char) in H.
  unfold tokensKey, lastUpdatedKey in H.
  rewrite !last_char_key in H by discriminate. discriminate.
Qed.

Lemma events_of_app (w w' : World) (evs : list event) :
  history w' = history w ++ evs -> events_of w w' = evs.
Proof. intros H. unfold events_of. rewrite H. apply drop_app_length. Qed.

(** ** Running the code *)

Section Run.

Context {conv : Strconv}.

(** The monadic code, run on a world, ends in one of the three worlds of
    [settle], chosen by [refilled >= 1] and by the fate of [EXEC]. *)
Lemma AllowRequest_run (rtb : RedisTokenBucket) (ip : string) (w : World) :
  AllowRequest rtb ip w = settle rtb w ip (refilled rtb w ip).
Proof.
  unfold AllowRequest. rewrite tokensKey_eq, lastUpdatedKey_eq.
  unfold settle, allowed_world, failed_world, denied_world, committed, commit,
    refilled, refill, tokens_of, lastUpdated_of, read.
  unfold mbind, M_bind, mret, M_ret, Now, Float64, Int64, Get, Exec, logPrintf.
  unfold mbind, M_bind, mret, M_ret, record. cbn [server unix_time history].
  destruct (get_err (server w) (tokensKey ip));
    destruct (get_err (server w) (lastUpdatedKey ip));
    destruct (kv (server w) !! tokensKey ip) as [[s1 d1]|];
    destruct (kv (server w) !! lastUpdatedKey ip) as [[s2 d2]|];
    cbn [value default from_option id];
    repeat match goal with
           | |- context [ParseFloat ?s] => destruct (ParseFloat s)
           | |- context [ParseInt ?s] => destruct (ParseInt s)
           end;
    cbn [value default from_option id];
    match goal with |- context [float64.geb ?x 1] => destruct (float64.geb x 1) end;
    try destruct (exec_err (server w)) eqn:E;
    unfold set_kv;
    cbn [fold_left apply_cmd appendArg cmd_key cmd_val cmd_exp
         server unix_time history kv get_err exec_err];
    rewrite ?E;
    cbn [fold_left apply_cmd appendArg cmd_key cmd_val cmd_exp
         server unix_time history kv get_err exec_err];
    rewrite <- ?app_assoc; reflexivity.
Qed.

Lemma events_allowed rtb w ip x :
  events_of w (allowed_world rtb w ip x) =
    [EvGet (tokensKey ip); EvGet (lastUpdatedKey ip);
     EvExec (commit rtb ip (unix_time w) x) true].
Proof. apply events_of_app. reflexivity. Qed.

Lemma events_failed rtb w ip x :
  events_of w (failed_world rtb w ip x) =
    [EvGet (tokensKey ip); EvGet (lastUpdatedKey ip);
     EvExec (commit rtb ip (unix_time w) x) false; EvLog LogUpdateError].
Proof. apply events_of_app. reflexivity. Qed.

Lemma events_denied w ip x :
  events_of w (denied_world w ip x) =
    [EvGet (tokensKey ip); EvGet (lastUpdatedKey ip);
     EvLog (LogRejected ip x)].
Proof. apply events_of_app. reflexivity. Qed.

(** The three outcomes of [settle], one lemma each. *)
Lemma settle_allowed rtb w ip x :
  float64.geb x 1 = true -> exec_err (server w) = false ->
  settle rtb w ip x = (true, allowed_world rtb w ip x).
Proof. unfold settle. intros -> ->. reflexivity. Qed.

Lemma settle_failed rtb w ip x :
  float64.geb x 1 = true -> exec_err (server w) = true ->
  settle rtb w ip x = (false, failed_world rtb w ip x).
Proof. unfold settle. intros -> ->. reflexivity. Qed.

Lemma settle_denied rtb w ip x :
  float64.geb x 1 = false ->
  settle rtb w ip x = (false, denied_world w ip x).
Proof. unfold settle. intros ->. reflexivity. Qed.

Lemma committed_tokens rtb w ip x :
  committed rtb w ip x !! tokensKey ip =
    Some (Entry (FormatFloat (x - 1)%float) (ttl rtb)).
Proof.
  unfold committed.
  rewrite lookup_insert_ne by (apply not_eq_sym, tokensKey_neq_lastUpdatedKey).
  apply lookup_insert_eq.
Qed.

Lemma committed_lastUpdated rtb w ip x :
  committed rtb w ip x !! lastUpdatedKey ip =
    Some (Entry (FormatInt (unix_time w)) (ttl rtb)).
Proof. unfold committed. apply lookup_insert_eq. Qed.

Lemma committed_other rtb w ip x k :
  k <> tokensKey ip -> k <> lastUpdatedKey ip ->
  committed rtb w ip x !! k = kv (server w) !! k.
Proof.
  intros H1 H2. unfold committed.
  rewrite !lookup_insert_ne by (apply not_eq_sym; assumption). reflexivity.
Qed.

End Run.

(** ** Successive calls within one second *)

Section Sequence.

Context {conv : Strconv}.

Lemma unseen_holds (rtb : RedisTokenBucket) (ip : string) (w : World) :
  healthy w ip -> unseen w ip ->
  holds rtb ip (unix_time w) (capacity rtb) w.
Proof.
  intros Hh [Ht Hl]. pose proof Hh as (Hg1 & Hg2 & _).
  unfold holds, tokens_of, lastUpdated_of, read.
  rewrite Hg1, Hg2, Ht, Hl. auto.
Qed.

Lemma holds_refilled (rtb : RedisTokenBucket) (ip : string) (now : Z)
    (x : float) (w : World) :
  holds rtb ip now x w -> refilled rtb w ip = refill rtb now x now.
Proof. intros (Hn & _ & Ht & Hl). unfold refilled. now rewrite Hn, Ht, Hl. Qed.

(** One allowed call on a healthy server whose writes read back. *)
Lemma holds_step (rtb : RedisTokenBucket) (ip : string) (now : Z)
    (x r : float) (w : World) :
  holds rtb ip now x w ->
  refill rtb now x now = r ->
  float64.geb r 1 = true ->
  ParseFloat (FormatFloat (r - 1)%float) = Some (r - 1)%float ->
  ParseInt (FormatInt now) = Some now ->
  fst (AllowRequest rtb ip w) = true /\
  holds rtb ip now (r - 1)%float (snd (AllowRequest rtb ip w)).
Proof.
  intros Hw Hr Hge Hpf Hpi. pose proof Hw as (Hn & (Hg1 & Hg2 & He) & _ & _).
  rewrite AllowRequest_run, (holds_refilled _ _ _ _ _ Hw), Hr.
  rewrite settle_allowed by assumption. cbn [fst snd]. split; [reflexivity|].
  unfold holds, healthy, tokens_of, lastUpdated_of, read.
  cbn [allowed_world unix_time server kv get_err exec_err].
  rewrite Hg1, Hg2, committed_tokens, committed_lastUpdated. cbn [value].
  rewrite Hn, Hpf, Hpi. auto.
Qed.

Lemma holds_denied (rtb : RedisTokenBucket) (ip : string) (now : Z)
    (x : float) (w : World) :
  holds rtb ip now x w ->
  float64.geb (refill rtb now x now) 1 = false ->
  fst (AllowRequest rtb ip w) = false.
Proof.
  intros Hw Hge. rewrite AllowRequest_run, (holds_refilled _ _ _ _ _ Hw).
  now rewrite settle_denied.
Qed.

(** Whole token counts: nothing is added within the second, and the
    minimum with the capacity changes nothing. *)
Lemma refill_whole (rtb : RedisTokenBucket) (now C k : Z) :
  capacity rtb = float64.of_int64 C -> is_finite (refillRate rtb) = true ->
  0 <= k <= C -> C <= 2 ^ 53 ->
  refill rtb now (float64.of_int64 k) now = float64.of_int64 k.
Proof.
  intros Hc Hr Hk HC. unfold refill.
  rewrite int64_sub_diag, add_no_refill, Hc by (assumption || lia).
  apply Min_whole; lia.
Qed.

Lemma calls_whole (rtb : RedisTokenBucket) (ip : string) (now C : Z) :
  capacity rtb = float64.of_int64 C -> is_finite (refillRate rtb) = true ->
  C <= 2 ^ 53 ->
  (forall k, 0 <= k < C ->
     ParseFloat (FormatFloat (float64.of_int64 k)) = Some (float64.of_int64 k)) ->
  ParseInt (FormatInt now) = Some now ->
  forall (n : nat) (k : Z) (w : World),
    Z.of_nat n <= k <= C ->
    holds rtb ip now (float64.of_int64 k) w ->
    holds rtb ip now (float64.of_int64 (k - Z.of_nat n)) (calls n rtb ip w).
Proof.
  intros Hc Hr HC Hpf Hpi n. induction n as [|n IH]; intros k w Hk Hw.
  - cbn [calls]. now replace (k - Z.of_nat 0) with k by lia.
  - cbn [calls].
    replace (k - Z.of_nat (S n)) with (k - 1 - Z.of_nat n) by lia.
    apply IH; [lia|]. rewrite <- of_int64_sub_one by lia.
    apply (holds_step rtb ip now (float64.of_int64 k)); trivial.
    + apply (refill_whole rtb now C); trivial. lia.
    + rewrite of_int64_geb_one by lia. apply Z.leb_le. lia.
    + rewrite of_int64_sub_one by lia. apply Hpf. lia.
Qed.

(** A bucket whose count is not lowered by the subtraction of one never
    runs out. *)
Lemma calls_stuck (rtb : RedisTokenBucket) (ip : string) (now : Z) :
  refill rtb now (capacity rtb) now = capacity rtb ->
  float64.geb (capacity rtb) 1 = true ->
  (capacity rtb - 1)%float = capacity rtb ->
  ParseFloat (FormatFloat (capacity rtb)) = Some (capacity rtb) ->
  ParseInt (FormatInt now) = Some now ->
  forall (n : nat) (w : World),
    holds rtb ip now (capacity rtb) w ->
    holds rtb ip now (capacity rtb) (calls n rtb ip w) /\
    fst (AllowRequest rtb ip (calls n rtb ip w)) = true.
Proof.
  intros Hr Hge Hsub Hpf Hpi.
  assert (Hstep : forall w, holds rtb ip now (capacity rtb) w ->
            fst (AllowRequest rtb ip w) = true /\
            holds rtb ip now (capacity rtb) (snd (AllowRequest rtb ip w))).
  { intros w Hw.
    destruct (holds_step rtb ip now (capacity rtb) (capacity rtb) w)
      as [H1 H2]; trivial; rewrite ?Hsub; trivial.
    rewrite Hsub in H2. auto. }
  intros n. induction n as [|n IH]; intros w Hw; cbn [calls].
  - split; [exact Hw | apply Hstep, Hw].
  - apply IH, Hstep, Hw.
Qed.

End Sequence.

(** * Properties of the specification *)

Section Properties.

Context {conv : Strconv}.

(** C1.  For every limiter, identifier and world, with
    [elapsedSeconds = now - lastUpdated] on [int64] (whatever its sign)
    and [refilled = min(capacity, tokens + elapsedSeconds * refillRate)]:
    the call takes the allow path, that is sends the commit, exactly when
    [refilled >= 1]; it logs a rejection exactly when [refilled >= 1]
    fails; and it answers [true] exactly when [refilled >= 1] and the
    commit went through. *)
Theorem AllowRequest_allows_iff_refilled
    (rtb : RedisTokenBucket) (ip : string) (w : World) :
  let now := unix_time w in
  let tokens := tokens_of rtb w ip in
  let lastUpdated := lastUpdated_of w ip in
  let elapsedSeconds := int64.wrap (now - lastUpdated) in
  let refilled :=
    math.Min (capacity rtb)
      (tokens + float64.of_int64 elapsedSeconds * refillRate rtb)%float in
  let ok := fst (AllowRequest rtb ip w) in
  let w' := snd (AllowRequest rtb ip w) in
  (batches (events_of w w') <> [] <-> float64.geb refilled 1 = true) /\
  (logs (events_of w w') = [LogRejected ip refilled]
     <-> float64.geb refilled 1 = false) /\
  (ok = true <-> float64.geb refilled 1 = true /\ exec_err (server w) = false).
Proof.
  intros now tokens lastUpdated elapsedSeconds refilled0 ok w'.
  subst ok w'. rewrite AllowRequest_run.
  change (refilled rtb w ip) with refilled0.
  unfold settle.
  destruct (float64.geb refilled0 1) eqn:Hge.
  - destruct (exec_err (server w)) eqn:Herr; cbn [fst snd];
      rewrite ?events_allowed, ?events_failed; cbn [batches logs flat_map app];
      intuition (discriminate || congruence).
  - cbn [fst snd]. rewrite events_denied. cbn [batches logs flat_map app].
    intuition (discriminate || congruence).
Qed.

(** C2.  When [refilled >= 1], the call sends one batch holding
    [SET tokens (refilled - 1)] and [SET last_updated now], both with the
    limiter's TTL.  If the batch goes through, the call answers [true]
    and both keys hold the new values under that TTL, all other keys
    being untouched; if it fails, the call answers [false] and the server
    is as before. *)
Theorem AllowRequest_commit
    (rtb : RedisTokenBucket) (ip : string) (w : World) :
  float64.geb (refilled rtb w ip) 1 = true ->
  let ok := fst (AllowRequest rtb ip w) in
  let w' := snd (AllowRequest rtb ip w) in
  batches (events_of w w') =
    [([SetCmd (tokensKey ip) (ArgFloat (refilled rtb w ip - 1)%float) (ttl rtb);
       SetCmd (lastUpdatedKey ip) (ArgInt (unix_time w)) (ttl rtb)], ok)] /\
  ok = negb (exec_err (server w)) /\
  if exec_err (server w) then
    ok = false /\ server w' = server w
  else
    kv (server w') !! tokensKey ip =
      Some (Entry (FormatFloat (refilled rtb w ip - 1)%float) (ttl rtb)) /\
    kv (server w') !! lastUpdatedKey ip =
      Some (Entry (FormatInt (unix_time w)) (ttl rtb)) /\
    forall k, k <> tokensKey ip -> k <> lastUpdatedKey ip ->
              kv (server w') !! k = kv (server w) !! k.
Proof.
  intros Hge ok w'. subst ok w'. rewrite AllowRequest_run.
  destruct (exec_err (server w)) eqn:Herr.
  - rewrite settle_failed by assumption. cbn [fst snd].
    rewrite events_failed. cbn. auto.
  - rewrite settle_allowed by assumption. cbn [fst snd].
    rewrite events_allowed. cbn [batches flat_map app negb].
    split; [reflexivity|]. split; [reflexivity|].
    cbn [allowed_world server kv].
    split; [apply committed_tokens|].
    split; [apply committed_lastUpdated|].
    intros k. apply committed_other.
Qed.

(** C3.  When [refilled >= 1] fails, the call answers [false] and sends
    no write: the server, and with it the stored token count and the
    stored timestamp of the identifier, are unchanged, so the next call
    starts from the same [lastUpdated]. *)
Theorem AllowRequest_denied_no_write
    (rtb : RedisTokenBucket) (ip : string) (w : World) :
  float64.geb (refilled rtb w ip) 1 = false ->
  let ok := fst (AllowRequest rtb ip w) in
  let w' := snd (AllowRequest rtb ip w) in
  ok = false /\
  batches (events_of w w') = [] /\
  server w' = server w /\
  kv (server w') !! tokensKey ip = kv (server w) !! tokensKey ip /\
  kv (server w') !! lastUpdatedKey ip = kv (server w) !! lastUpdatedKey ip /\
  lastUpdated_of w' ip = lastUpdated_of w ip /\
  tokens_of rtb w' ip = tokens_of rtb w ip.
Proof.
  intros Hge ok w'. subst ok w'. rewrite AllowRequest_run.
  rewrite settle_denied by assumption. cbn [fst snd].
  rewrite events_denied. cbn. auto 10.
Qed.

(** C4.  A token count that is absent ([redis.Nil]), unreadable (the
    [GET] failed) or malformed (the parser rejects it) is replaced by
    [capacity]; a timestamp that is absent, unreadable or malformed is
    replaced by the current time.  In each case the call goes on with the
    default and ends with a boolean like any other call. *)
Theorem AllowRequest_read_defaults
    (rtb : RedisTokenBucket) (ip : string) (w : World) :
  (read w (tokensKey ip) = RedisNil \/
   read w (tokensKey ip) = RedisError \/
   (exists s, read w (tokensKey ip) = Value s /\ ParseFloat s = None) ->
   AllowRequest rtb ip w =
     settle rtb w ip
       (refill rtb (unix_time w) (capacity rtb) (lastUpdated_of w ip))) /\
  (read w (lastUpdatedKey ip) = RedisNil \/
   read w (lastUpdatedKey ip) = RedisError \/
   (exists s, read w (lastUpdatedKey ip) = Value s /\ ParseInt s = None) ->
   AllowRequest rtb ip w =
     settle rtb w ip
       (refill rtb (unix_time w) (tokens_of rtb w ip) (unix_time w))) /\
  (exists ok w', AllowRequest rtb ip w = (ok, w')).
Proof.
  rewrite AllowRequest_run. unfold refilled. repeat split.
  - intros H. f_equal. f_equal. unfold tokens_of.
    destruct H as [-> | [-> | (s & -> & ->)]]; reflexivity.
  - intros H. f_equal. f_equal. unfold lastUpdated_of.
    destruct H as [-> | [-> | (s & -> & ->)]]; reflexivity.
  - destruct (settle _ _ _ _) as [ok w']. eauto.
Qed.

(** C5, as the code has it.  After a successful allow-and-commit the
    token count written is [refilled - 1], computed on [float64]; it is
    never negative and never above the capacity, and it is strictly below
    the capacity whenever the capacity is at most 2^53.  Above that the
    subtraction may round back to the capacity itself. *)
Theorem written_tokens_range
    (rtb : RedisTokenBucket) (ip : string) (w : World) :
  float64.geb (refilled rtb w ip) 1 = true ->
  exec_err (server w) = false ->
  let written := (refilled rtb w ip - 1)%float in
  let w' := snd (AllowRequest rtb ip w) in
  fst (AllowRequest rtb ip w) = true /\
  batches (events_of w w') =
    [([SetCmd (tokensKey ip) (ArgFloat written) (ttl rtb);
       SetCmd (lastUpdatedKey ip) (ArgInt (unix_time w)) (ttl rtb)], true)] /\
  kv (server w') !! tokensKey ip = Some (Entry (FormatFloat written) (ttl rtb)) /\
  (0 <=? written)%float = true /\
  (written <=? capacity rtb)%float = true /\
  ((capacity rtb <=? 0x1p53)%float = true ->
   (written <? capacity rtb)%float = true).
Proof.
  intros Hge Herr written w'. subst written w'.
  rewrite AllowRequest_run, settle_allowed by assumption. cbn [fst snd].
  rewrite events_allowed. cbn [batches flat_map app allowed_world server kv].
  split; [reflexivity|]. split; [reflexivity|].
  split; [apply committed_tokens|].
  destruct (sub_one_bounds (refilled rtb w ip) Hge) as (H0 & Hle & Hlt).
  assert (Hcap : (refilled rtb w ip <=? capacity rtb)%float = true)
    by (apply Min_le_capacity; exact Hge).
  split; [exact H0|]. split; [exact (leb_trans _ _ _ Hle Hcap)|].
  intros H53. eapply ltb_leb_trans; [|exact Hcap].
  apply Hlt. exact (leb_trans _ _ _ Hcap H53).
Qed.

(** C6, as the code has it.  Let the capacity be a whole number [C] from
    0 to 2^53 and the refill rate be finite.  On a server that answers
    and reads back what the limiter wrote, for an identifier with no
    stored state, the first [C] successive calls within one second answer
    [true] and the call after them answers [false]. *)
Theorem first_calls_allowed
    (C : Z) (rtb : RedisTokenBucket) (ip : string) (w : World) :
  0 <= C <= 2 ^ 53 ->
  capacity rtb = float64.of_int64 C ->
  is_finite (refillRate rtb) = true ->
  healthy w ip ->
  unseen w ip ->
  (forall k, 0 <= k < C ->
     ParseFloat (FormatFloat (float64.of_int64 k)) = Some (float64.of_int64 k)) ->
  ParseInt (FormatInt (unix_time w)) = Some (unix_time w) ->
  (forall n : nat, Z.of_nat n < C ->
     fst (AllowRequest rtb ip (calls n rtb ip w)) = true) /\
  fst (AllowRequest rtb ip (calls (Z.to_nat C) rtb ip w)) = false.
Proof.
  intros HC Hcap Hrate Hh Hu Hpf Hpi.
  pose proof (unseen_holds rtb ip w Hh Hu) as H0. rewrite Hcap in H0.
  assert (Hinv : forall n : nat, Z.of_nat n <= C ->
            holds rtb ip (unix_time w) (float64.of_int64 (C - Z.of_nat n))
                  (calls n rtb ip w)).
  { intros n Hn. apply (calls_whole rtb ip (unix_time w) C); trivial; lia. }
  split.
  - intros n Hn. specialize (Hinv n ltac:(lia)).
    apply (holds_step rtb ip (unix_time w) (float64.of_int64 (C - Z.of_nat n))
             (float64.of_int64 (C - Z.of_nat n)));
      trivial.
    + apply (refill_whole rtb _ C); trivial; lia.
    + rewrite of_int64_geb_one by lia. apply Z.leb_le. lia.
    + rewrite of_int64_sub_one by lia. apply Hpf. lia.
  - specialize (Hinv (Z.to_nat C) ltac:(lia)).
    rewrite Z2Nat.id, Z.sub_diag in Hinv by lia.
    apply (holds_denied rtb ip (unix_time w) _ _ Hinv).
    rewrite (refill_whole rtb _ C) by (trivial; lia). reflexivity.
Qed.

(** C7, as the code has it.  When [refilled >= 1] but the commit fails,
    the call answers [false], leaves the server as it was and logs the
    failure; a request denied for lack of tokens is answered [false] as
    well.  The two cases differ in the log line only, which the caller
    does not receive. *)
Theorem AllowRequest_write_failure_is_false
    (rtb : RedisTokenBucket) (ip : string) (w : World) :
  float64.geb (refilled rtb w ip) 1 = true ->
  exec_err (server w) = true ->
  let ok := fst (AllowRequest rtb ip w) in
  let w' := snd (AllowRequest rtb ip w) in
  ok = false /\
  server w' = server w /\
  logs (events_of w w') = [LogUpdateError] /\
  forall (rtb2 : RedisTokenBucket) (ip2 : string) (w2 : World),
    float64.geb (refilled rtb2 w2 ip2) 1 = false ->
    fst (AllowRequest rtb2 ip2 w2) = ok /\
    logs (events_of w2 (snd (AllowRequest rtb2 ip2 w2))) =
      [LogRejected ip2 (refilled rtb2 w2 ip2)].
Proof.
  intros Hge Herr ok w'. subst ok w'. rewrite AllowRequest_run.
  rewrite settle_failed by assumption. cbn [fst snd].
  rewrite events_failed. repeat split.
  - rewrite AllowRequest_run, settle_denied by assumption. reflexivity.
  - rewrite AllowRequest_run, settle_denied by assumption. cbn [snd].
    rewrite events_denied. reflexivity.
Qed.

(** C9.  The call reads exactly the keys
    [rate_limit:ip:<identifier>:tokens] and
    [rate_limit:ip:<identifier>:last_updated], in that order; a batch it
    sends sets the first to a [float64] and the second to the [int64]
    unix time; and no other key of the server changes. *)
Theorem AllowRequest_keys
    (rtb : RedisTokenBucket) (ip : string) (w : World) :
  let w' := snd (AllowRequest rtb ip w) in
  getIPKey rtb ip = "rate_limit:ip:" +:+ ip /\
  reads (events_of w w') =
    [ "rate_limit:ip:" +:+ ip +:+ ":tokens";
      "rate_limit:ip:" +:+ ip +:+ ":last_updated" ] /\
  (forall c ok, In (c, ok) (batches (events_of w w')) ->
     exists x : float,
       c = [ SetCmd ("rate_limit:ip:" +:+ ip +:+ ":tokens") (ArgFloat x) (ttl rtb);
             SetCmd ("rate_limit:ip:" +:+ ip +:+ ":last_updated")
                    (ArgInt (unix_time w)) (ttl rtb) ]) /\
  (forall k, k <> "rate_limit:ip:" +:+ ip +:+ ":tokens" ->
             k <> "rate_limit:ip:" +:+ ip +:+ ":last_updated" ->
             kv (server w') !! k = kv (server w) !! k).
Proof.
  intros w'. subst w'. rewrite AllowRequest_run.
  fold (tokensKey ip) (lastUpdatedKey ip).
  split; [reflexivity|]. unfold settle.
  destruct (float64.geb (refilled rtb w ip) 1);
    [destruct (exec_err (server w))|]; cbn [snd];
    rewrite ?events_allowed, ?events_failed, ?events_denied;
    cbn [reads batches flat_map app In];
    (split; [reflexivity|]);
    (split;
     [ intros c ok Hin; repeat destruct Hin as [Hin | Hin]; try contradiction;
       injection Hin as <- _; eexists; reflexivity
     | intros k Hk1 Hk2;
       first [reflexivity | apply committed_other; assumption] ]).
Qed.

(** C10.  With a capacity below one, whatever the server holds, whatever
    the time and whatever the identifier, the call answers [false] and
    writes nothing: the minimum with the capacity keeps [refilled] below
    one. *)
Theorem capacity_below_one_denies
    (rtb : RedisTokenBucket) (ip : string) (w : World) :
  (capacity rtb <? 1)%float = true ->
  float64.geb (refilled rtb w ip) 1 = false /\
  fst (AllowRequest rtb ip w) = false /\
  server (snd (AllowRequest rtb ip w)) = server w.
Proof.
  intros Hcap.
  assert (Hge : float64.geb (refilled rtb w ip) 1 = false)
    by (apply Min_below_one; exact Hcap).
  rewrite AllowRequest_run, settle_denied by assumption. auto.
Qed.

(** C8, as the code has it.  [NewRedisTokenBucket] checks nothing: for
    every client, capacity, refill rate and TTL, positive or not, it
    returns a limiter that holds exactly the values it was given.  Nor
    does a call check them: on that limiter [AllowRequest] runs to a
    boolean, and every [SET] it sends carries the TTL as it was given. *)
Theorem NewRedisTokenBucket_keeps_config
    (cl : Client) (cap rate : float) (t : Duration) (ip : string) (w : World) :
  let rtb := NewRedisTokenBucket cl cap rate t in
  client rtb = cl /\ capacity rtb = cap /\ refillRate rtb = rate /\ ttl rtb = t /\
  (exists ok w', AllowRequest rtb ip w = (ok, w')) /\
  (forall c ok, In (c, ok) (batches (events_of w (snd (AllowRequest rtb ip w)))) ->
     Forall (fun x => cmd_exp x = t) c).
Proof.
  intros rtb. repeat (split; [reflexivity|]). split.
  - destruct (AllowRequest rtb ip w) as [ok w']. eauto.
  - rewrite AllowRequest_run. unfold settle.
    destruct (float64.geb (refilled rtb w ip) 1);
      [destruct (exec_err (server w))|]; cbn [snd];
      rewrite ?events_allowed, ?events_failed, ?events_denied;
      cbn [batches flat_map app In]; intros c ok Hin;
      repeat destruct Hin as [Hin | Hin]; try contradiction;
      injection Hin as <- _; repeat constructor.
Qed.

End Properties.

(** * Further properties of the code

    What follows goes beyond the specification: more on [AllowRequest],
    then the middleware, the routes and the start-up of [main]. *)

(** ** More on the order *)

Lemma rank_lower_bound (x : spec_float) (a : Z * Z * Z) :
  rank x = Some a -> lex_le (-2, 0, 0) a.
Proof.
  destruct x as [s|[|]| |[|] m e]; cbn [rank]; intros [= <-];
    try (right; reflexivity); left; unfold lex_lt; lia.
Qed.

Lemma ltb_irrefl (x : float) : (x <? x)%float = false.
Proof.
  destruct (x <? x)%float eqn:E; [|reflexivity].
  apply ltb_rank in E. destruct E as (a & b & Ha & Hb & Hlt).
  rewrite Ha in Hb. injection Hb as <-.
  exfalso. apply (lex_lt_not_le _ _ Hlt). right. reflexivity.
Qed.

(** [min(c, y)] is never above [c], whatever [y]. *)
Lemma Min_not_above (c y : float) : (c <? math.Min c y)%float = false.
Proof.
  unfold math.Min.
  destruct (math.IsNegInf c || math.IsNegInf y).
  { destruct (c <? neg_infinity)%float eqn:E; [|reflexivity].
    apply ltb_rank in E. destruct E as (a & b & Ha & Hb & Hlt).
    injection Hb as <-. apply rank_lower_bound in Ha.
    exfalso. exact (lex_lt_not_le _ _ Hlt Ha). }
  destruct (math.IsNaN c || math.IsNaN y).
  { destruct (c <? nan)%float eqn:E; [|reflexivity].
    apply ltb_rank in E. destruct E as (a & b & _ & Hb & _). discriminate. }
  destruct ((c =? 0)%float && (c =? y)%float) eqn:Hz.
  - apply andb_true_iff in Hz. destruct Hz as [_ Hz].
    destruct (math.Signbit c); [apply ltb_irrefl|].
    apply eqb_rank in Hz. destruct Hz as (a & Ha & Hb).
    eapply ltb_false_of_le; eauto. right. reflexivity.
  - destruct (c <? y)%float eqn:Hlt; [apply ltb_irrefl | exact Hlt].
Qed.

(** NaN spreads through the sum and through [min]. *)
Lemma add_nan_l (y : float) : (nan + y)%float = nan.
Proof. apply Prim2SF_inj. rewrite add_spec. reflexivity. Qed.

Lemma Min_nan_denied (c : float) : float64.geb (math.Min c nan) 1 = false.
Proof.
  unfold math.Min.
  destruct (math.IsNegInf c || math.IsNegInf nan); [reflexivity|].
  replace (math.IsNaN c || math.IsNaN nan) with true
    by (symmetry; apply orb_true_r).
  reflexivity.
Qed.

(** A capacity of at least one: a positive number or +Inf. *)
Lemma ge_one_SF (c : float) :
  float64.geb c 1 = true ->
  (exists m e, Prim2SF c = S754_finite false m e) \/ Prim2SF c = S754_infinity false.
Proof.
  unfold float64.geb. intros H. apply leb_rank in H.
  destruct H as (one & b & Hone & Hb & Hle).
  rewrite frank_one in Hone. injection Hone as <-. unfold frank in Hb.
  destruct (Prim2SF c) as [s|[|]| |[|] m e]; cbn [rank] in Hb;
    try discriminate; injection Hb as <-; eauto;
    destruct Hle as [Hlt | Heq]; try discriminate; unfold lex_lt in Hlt; lia.
Qed.

Lemma add_no_refill_ge_one (c r : float) :
  float64.geb c 1 = true -> is_finite r = true ->
  (c + float64.of_int64 0 * r)%float = c.
Proof.
  intros Hc Hr. apply Prim2SF_inj.
  rewrite add_spec, mul_spec, Prim2SF_of_int64 by lia.
  assert (Hz : exists s, SF64mul (binary_normalize prec emax 0 0 false) (Prim2SF r)
                         = S754_zero s).
  { destruct (finite_SF r Hr) as [(s & ->) | (s & m & e & ->)]; cbn; eauto. }
  destruct Hz as (s & ->).
  destruct (ge_one_SF c Hc) as [(m & e & ->) | ->]; reflexivity.
Qed.

Lemma Min_self_ge_one (c : float) :
  float64.geb c 1 = true -> math.Min c c = c.
Proof.
  intros Hc. pose proof Hc as H. unfold float64.geb in H. apply leb_rank in H.
  destruct H as (one & b & Hone & Hb & Hle).
  rewrite frank_one in Hone. injection Hone as <-.
  unfold math.Min.
  replace (math.IsNegInf c) with false.
  2:{ symmetry. unfold math.IsNegInf.
      eapply eqb_false_of_rank; [exact Hb | reflexivity |].
      intros ->. destruct Hle as [Hlt | Heq]; [unfold lex_lt in Hlt; lia | discriminate]. }
  replace (math.IsNaN c) with false.
  2:{ symmetry. unfold math.IsNaN, is_nan. apply negb_false_iff, eqb_rank. eauto. }
  cbn [orb].
  replace (c =? 0)%float with false.
  2:{ symmetry. eapply eqb_false_of_rank; [exact Hb | apply frank_zero |].
      intros ->. destruct Hle as [Hlt | Heq]; [unfold lex_lt in Hlt; lia | discriminate]. }
  cbn [andb]. rewrite ltb_irrefl. reflexivity.
Qed.

(** ** Sums and products of whole numbers *)

Lemma Zdigits2_shift (j s : Z) :
  0 < j -> 0 <= s -> Zdigits2 (j * 2 ^ s) = Zdigits2 j + s.
Proof.
  intros Hj Hs. destruct (Zdigits2_bounds j Hj) as [Hd Hb].
  assert (0 < 2 ^ s) by (apply Z.pow_pos_nonneg; lia).
  apply Zdigits2_unique; [lia|].
  replace (Zdigits2 j + s - 1) with (Zdigits2 j - 1 + s) by lia.
  rewrite !Z.pow_add_r by lia. nia.
Qed.

(** A whole number below 2^53 written with [s] more binary places rounds
    to the same float. *)
Lemma round_scaled (sx : bool) (j s e : Z) (p : positive) :
  0 < j < 2 ^ 53 -> 0 <= s -> Zpos p = j * 2 ^ s -> e = - s ->
  (53 < Zdigits2 (Zpos p) ->
   binary_round_aux prec emax sx (Zpos p) e loc_Exact =
     S754_finite sx (Z.to_pos (j * 2 ^ (53 - Zdigits2 j))) (Zdigits2 j - 53)) /\
  binary_round prec emax sx p e =
    S754_finite sx (Z.to_pos (j * 2 ^ (53 - Zdigits2 j))) (Zdigits2 j - 53).
Proof.
  intros Hj Hs Hp ->.
  pose proof (Zdigits2_below j Hj) as Hd.
  assert (Hdig : Zdigits2 (Zpos p) = Zdigits2 j + s)
    by (rewrite Hp; apply Zdigits2_shift; lia).
  set (d := Zdigits2 j) in *.
  assert (Hlong : 53 < Zdigits2 (Zpos p) ->
            binary_round_aux prec emax sx (Zpos p) (- s) loc_Exact =
              S754_finite sx (Z.to_pos (j * 2 ^ (53 - d))) (d - 53)).
  { intros Hl. rewrite Hdig in Hl.
    set (n := d + s - 53).
    assert (Hsplit : Zpos p = j * 2 ^ (53 - d) * 2 ^ n).
    { rewrite Hp, <- Z.mul_assoc, <- Z.pow_add_r by lia. f_equal. f_equal. lia. }
    assert (Hpos : 0 < 2 ^ n) by (apply Z.pow_pos_nonneg; lia).
    destruct (binary_round_aux_cut sx (Zpos p) (- s) n)
      as (m' & _ & Hex & Hq & ->); try lia.
    assert (Hdiv : Zpos p / 2 ^ n = j * 2 ^ (53 - d))
      by (rewrite Hsplit; apply Z.div_mul; lia).
    assert (Hmod : Zpos p mod 2 ^ n = 0)
      by (rewrite Hsplit; apply Z.mod_mul; lia).
    rewrite (Hex Hmod), Hdiv. rewrite Hdiv in Hq.
    replace (j * 2 ^ (53 - d) <? 2 ^ 53) with true by (symmetry; apply Z.ltb_lt; lia).
    replace (- s + n <=? 971) with true by (symmetry; apply Z.leb_le; lia).
    f_equal. lia. }
  split; [exact Hlong|].
  destruct (Z_le_gt_dec (Zdigits2 (Zpos p)) 53) as [Hshort | Hl].
  - rewrite binary_round_exact by lia. rewrite Hdig.
    replace (d + s + - s - 53 <=? 971) with true by (symmetry; apply Z.leb_le; lia).
    f_equal; [|lia]. f_equal. rewrite Hp, <- Z.mul_assoc, <- Z.pow_add_r by lia.
    f_equal. f_equal. lia.
  - rewrite binary_round_long by lia. apply Hlong. lia.
Qed.

Lemma normalize_scaled_any (j s : Z) :
  0 <= j < 2 ^ 53 -> 0 <= s ->
  binary_normalize prec emax (j * 2 ^ s) (- s) false =
    binary_normalize prec emax j 0 false.
Proof.
  intros Hj Hs. destruct (Z.eq_dec j 0) as [-> | H0]; [reflexivity|].
  rewrite (normalize_whole j) by lia.
  assert (0 < 2 ^ s) by (apply Z.pow_pos_nonneg; lia).
  destruct (j * 2 ^ s) as [|p|p] eqn:Ep; try lia.
  cbn [binary_normalize].
  apply (round_scaled false j s (- s) p); auto; lia.
Qed.

(** The float of a positive whole number, with its digits named. *)
Lemma whole_SF (k : Z) :
  0 < k < 2 ^ 53 ->
  exists m : positive,
    Prim2SF (float64.of_int64 k) = S754_finite false m (Zdigits2 k - 53) /\
    Zpos m = k * 2 ^ (53 - Zdigits2 k).
Proof.
  intros Hk. pose proof (Zdigits2_below k Hk) as Hd.
  assert (0 < 2 ^ (53 - Zdigits2 k)) by (apply Z.pow_pos_nonneg; lia).
  rewrite Prim2SF_of_int64, normalize_whole by lia.
  eexists. split; [reflexivity|]. rewrite Z2Pos.id; lia.
Qed.

(** Below 2^53, the sum of whole numbers is exact. *)
Lemma of_int64_add (a b : Z) :
  0 <= a -> 0 <= b -> a + b < 2 ^ 53 ->
  (float64.of_int64 a + float64.of_int64 b)%float = float64.of_int64 (a + b).
Proof.
  intros Ha Hb Hab. apply Prim2SF_inj. rewrite add_spec.
  rewrite (Prim2SF_of_int64 (a + b)) by lia.
  destruct (Z.eq_dec a 0) as [-> | Ha0].
  { rewrite (Prim2SF_of_int64 0), Z.add_0_l by lia.
    destruct (Z.eq_dec b 0) as [-> | Hb0]; [reflexivity|].
    rewrite (Prim2SF_of_int64 b), (normalize_whole b) by lia. reflexivity. }
  destruct (Z.eq_dec b 0) as [-> | Hb0].
  { rewrite (Prim2SF_of_int64 0), Z.add_0_r by lia.
    rewrite (Prim2SF_of_int64 a), (normalize_whole a) by lia. reflexivity. }
  destruct (whole_SF a ltac:(lia)) as (ma & -> & Hma).
  destruct (whole_SF b ltac:(lia)) as (mb & -> & Hmb).
  pose proof (Zdigits2_below a ltac:(lia)) as Hda.
  pose proof (Zdigits2_below b ltac:(lia)) as Hdb.
  unfold SF64add, SFadd. cbn [cond_Zopp].
  set (ez := Z.min (Zdigits2 a - 53) (Zdigits2 b - 53)).
  rewrite !shl_align_fst by (subst ez; lia).
  rewrite Hma, Hmb, <- !Z.mul_assoc, <- !Z.pow_add_r by (subst ez; lia).
  replace (53 - Zdigits2 a + (Zdigits2 a - 53 - ez)) with (- ez) by lia.
  replace (53 - Zdigits2 b + (Zdigits2 b - 53 - ez)) with (- ez) by lia.
  rewrite <- Z.mul_add_distr_r.
  replace ez with (- (- ez)) at 2 by lia.
  apply normalize_scaled_any; subst ez; lia.
Qed.

(** Below 2^53, the product of whole numbers is exact. *)
Lemma of_int64_mul (a b : Z) :
  0 <= a <= 2 ^ 53 -> 0 <= b <= 2 ^ 53 -> a * b < 2 ^ 53 ->
  (float64.of_int64 a * float64.of_int64 b)%float = float64.of_int64 (a * b).
Proof.
  intros Ha Hb Hab. apply Prim2SF_inj. rewrite mul_spec.
  rewrite (Prim2SF_of_int64 (a * b)) by nia.
  destruct (Z.eq_dec a 0) as [-> | Ha0].
  { rewrite (Prim2SF_of_int64 0), Z.mul_0_l by lia.
    destruct (Z.eq_dec b 0) as [-> | Hb0]; [reflexivity|].
    destruct (Z.eq_dec b (2 ^ 53)) as [-> | Hb1]; [reflexivity|].
    rewrite (Prim2SF_of_int64 b), (normalize_whole b) by lia. reflexivity. }
  destruct (Z.eq_dec b 0) as [-> | Hb0].
  { rewrite (Prim2SF_of_int64 0), Z.mul_0_r by lia.
    destruct (Z.eq_dec a (2 ^ 53)) as [-> | Ha1]; [reflexivity|].
    rewrite (Prim2SF_of_int64 a), (normalize_whole a) by lia. reflexivity. }
  assert (Ha1 : a < 2 ^ 53) by nia. assert (Hb1 : b < 2 ^ 53) by nia.
  destruct (whole_SF a ltac:(lia)) as (ma & -> & Hma).
  destruct (whole_SF b ltac:(lia)) as (mb & -> & Hmb).
  pose proof (Zdigits2_below a ltac:(lia)) as Hda.
  pose proof (Zdigits2_below b ltac:(lia)) as Hdb.
  pose proof (Zdigits2_below (a * b) ltac:(nia)) as Hdab.
  unfold SF64mul, SFmul. cbn [xorb].
  rewrite (normalize_whole (a * b)) by nia.
  set (t := 106 - Zdigits2 a - Zdigits2 b).
  assert (Hp : Zpos (ma * mb) = a * b * 2 ^ t).
  { rewrite Pos2Z.inj_mul, Hma, Hmb. subst t.
    replace (106 - Zdigits2 a - Zdigits2 b)
      with ((53 - Zdigits2 a) + (53 - Zdigits2 b)) by lia.
    rewrite Z.pow_add_r by lia. ring. }
  apply (round_scaled false (a * b) t _ (ma * mb)); try nia; try (subst t; lia).
  rewrite Hp, Zdigits2_shift by (subst t; nia).
  destruct (Zdigits2_bounds a ltac:(lia)) as [_ Hba].
  destruct (Zdigits2_bounds b ltac:(lia)) as [_ Hbb].
  destruct (Zdigits2_bounds (a * b) ltac:(nia)) as [_ Hbab].
  assert (Hlow : Zdigits2 a + Zdigits2 b - 1 <= Zdigits2 (a * b)).
  { destruct (Z_le_gt_dec (Zdigits2 a + Zdigits2 b - 1) (Zdigits2 (a * b)))
      as [|Hgt]; [assumption|exfalso].
    assert (2 ^ Zdigits2 (a * b) <= 2 ^ (Zdigits2 a - 1 + (Zdigits2 b - 1)))
      by (apply Z.pow_le_mono_r; lia).
    rewrite Z.pow_add_r in H by lia. nia. }
  subst t. lia.
Qed.

Lemma whole_rank_lt (j k : Z) :
  0 <= j < k -> k <= 2 ^ 53 -> lex_lt (whole_rank j) (whole_rank k).
Proof.
  intros Hj Hk. unfold whole_rank.
  destruct (Z.eqb_spec j 0) as [-> | Hj0], (Z.eqb_spec k 0) as [-> | Hk0]; try lia.
  - destruct (k =? 2 ^ 53); unfold lex_lt; lia.
  - destruct (Z.eqb_spec j (2 ^ 53)) as [-> | Hj1],
             (Z.eqb_spec k (2 ^ 53)) as [-> | Hk1]; try lia.
    + pose proof (Zdigits2_below j ltac:(lia)).
      unfold lex_lt. right. split; [reflexivity|]. left. lia.
    + pose proof (Zdigits2_mono j k ltac:(lia)) as Hd.
      pose proof (Zdigits2_below k ltac:(lia)) as Hdk.
      destruct (Z.eq_dec (Zdigits2 j) (Zdigits2 k)) as [Heq | Hne].
      * rewrite Heq. unfold lex_lt. right. split; [reflexivity|].
        right. split; [reflexivity|].
        apply Z.mul_lt_mono_pos_r; [apply Z.pow_pos_nonneg|]; lia.
      * unfold lex_lt. right. split; [reflexivity|]. left. lia.
Qed.

(** [min] on whole numbers is the minimum of the numbers. *)
Lemma Min_whole_min (C k : Z) :
  0 <= C <= 2 ^ 53 -> 0 <= k <= 2 ^ 53 ->
  math.Min (float64.of_int64 C) (float64.of_int64 k) = float64.of_int64 (Z.min C k).
Proof.
  intros HC Hk. destruct (Z_le_gt_dec k C) as [Hle | Hgt].
  - rewrite Z.min_r by lia. apply Min_whole; lia.
  - rewrite Z.min_l by lia. unfold math.Min.
    destruct (whole_not_special C ltac:(lia)) as [-> ->].
    destruct (whole_not_special k ltac:(lia)) as [-> ->]. cbn [orb].
    pose proof (whole_rank_lt C k ltac:(lia) ltac:(lia)) as Hlt.
    replace (float64.of_int64 C =? float64.of_int64 k)%float with false.
    + rewrite andb_false_r.
      rewrite (ltb_of_rank _ _ (whole_rank C) (whole_rank k));
        try reflexivity; try (apply frank_whole; lia). exact Hlt.
    + symmetry. eapply eqb_false_of_rank; try (apply frank_whole; lia).
      intros E. rewrite E in Hlt. apply (lex_lt_not_le _ _ Hlt). right. reflexivity.
Qed.

Lemma is_finite_whole (k : Z) :
  0 <= k <= 2 ^ 53 -> is_finite (float64.of_int64 k) = true.
Proof.
  intros Hk. unfold is_finite.
  destruct (whole_not_special k Hk) as [_ Hn]. unfold math.IsNaN in Hn.
  rewrite Hn. cbn [orb]. apply negb_true_iff.
  unfold is_infinity. rewrite FloatAxioms.eqb_spec, abs_spec, Prim2SF_of_int64 by lia.
  destruct (Z.eq_dec k 0) as [-> | H0]; [reflexivity|].
  destruct (Z.eq_dec k (2 ^ 53)) as [-> | H1]; [reflexivity|].
  rewrite normalize_whole by lia. reflexivity.
Qed.

(** The refill law on whole numbers: [min(C, t + s * R)], exactly. *)
Lemma refill_whole_law (rtb : RedisTokenBucket) (C R t s now lu : Z) :
  capacity rtb = float64.of_int64 C ->
  refillRate rtb = float64.of_int64 R ->
  0 <= C <= 2 ^ 53 -> 0 <= R <= 2 ^ 53 -> 0 <= t -> 0 <= s <= 2 ^ 53 ->
  int64.sub now lu = s ->
  t + s * R < 2 ^ 53 ->
  refill rtb now (float64.of_int64 t) lu =
    float64.of_int64 (Z.min C (t + s * R)).
Proof.
  intros Hc Hr HC HR Ht Hs Hsub Hsum. unfold refill. rewrite Hsub, Hc, Hr.
  rewrite of_int64_mul, of_int64_add by nia.
  apply Min_whole_min; nia.
Qed.

(** ** Keys of different identifiers *)

Lemma length_append (s t : string) :
  String.length (s +:+ t) = (String.length s + String.length t)%nat.
Proof.
  induction s as [|c s IH]; [reflexivity|].
  change (S (String.length (s +:+ t)) = S (String.length s + String.length t)).
  now rewrite IH.
Qed.

Lemma append_inj_r (s s' t : string) : s +:+ t = s' +:+ t -> s = s'.
Proof.
  revert s'. induction s as [|c s IH]; intros [|c' s'] H; cbn in H.
  - reflexivity.
  - apply (f_equal String.length) in H.
    change (String.length t = S (String.length (s' +:+ t))) in H.
    rewrite length_append in H. lia.
  - apply (f_equal String.length) in H.
    change (S (String.length (s +:+ t)) = String.length t) in H.
    rewrite length_append in H. lia.
  - injection H as -> H. f_equal. auto.
Qed.

Lemma append_inj_l (p s t : string) : p +:+ s = p +:+ t -> s = t.
Proof.
  induction p as [|c p IH]; cbn; [trivial|].
  intros H. injection H as H. auto.
Qed.

Lemma tokensKey_inj (ip ip' : string) : tokensKey ip = tokensKey ip' -> ip = ip'.
Proof.
  unfold tokensKey. intros H. apply append_inj_l in H. exact (append_inj_r _ _ _ H).
Qed.

Lemma lastUpdatedKey_inj (ip ip' : string) :
  lastUpdatedKey ip = lastUpdatedKey ip' -> ip = ip'.
Proof.
  unfold lastUpdatedKey. intros H. apply append_inj_l in H.
  exact (append_inj_r _ _ _ H).
Qed.

Section More.

Context {conv : Strconv}.

Lemma refilled_ext (rtb : RedisTokenBucket) (w w2 : World) (ip : string) :
  unix_time w = unix_time w2 -> server w = server w2 ->
  refilled rtb w ip = refilled rtb w2 ip.
Proof.
  intros Ht Hs. unfold refilled, tokens_of, lastUpdated_of, read.
  now rewrite Ht, Hs.
Qed.

Lemma read_after_call (rtb : RedisTokenBucket) (ip : string) (w : World)
    (k : string) :
  k <> tokensKey ip -> k <> lastUpdatedKey ip ->
  read (snd (AllowRequest rtb ip w)) k = read w k.
Proof.
  intros H1 H2. rewrite AllowRequest_run. unfold settle.
  destruct (float64.geb (refilled rtb w ip) 1);
    [destruct (exec_err (server w))|]; cbn [snd]; try reflexivity.
  unfold read. cbn [allowed_world server get_err kv].
  now rewrite committed_other.
Qed.

Lemma unix_time_after_call (rtb : RedisTokenBucket) (ip : string) (w : World) :
  unix_time (snd (AllowRequest rtb ip w)) = unix_time w.
Proof.
  rewrite AllowRequest_run. unfold settle.
  destruct (float64.geb (refilled rtb w ip) 1);
    [destruct (exec_err (server w))|]; reflexivity.
Qed.

Lemma exec_err_after_call (rtb : RedisTokenBucket) (ip : string) (w : World) :
  exec_err (server (snd (AllowRequest rtb ip w))) = exec_err (server w).
Proof.
  rewrite AllowRequest_run. unfold settle.
  destruct (float64.geb (refilled rtb w ip) 1);
    [destruct (exec_err (server w)) eqn:E|];
    cbn [snd allowed_world failed_world denied_world server exec_err];
    congruence.
Qed.

(** X1.  Identifiers never share a key: for two different identifiers the
    four keys built from [getIPKey] are pairwise different, whatever
    characters the identifiers contain. *)
Theorem keys_of_identifiers_disjoint
    (rtb : RedisTokenBucket) (ip ip' : string) :
  ip <> ip' ->
  getIPKey rtb ip <> getIPKey rtb ip' /\
  getIPKey rtb ip +:+ ":tokens" <> getIPKey rtb ip' +:+ ":tokens" /\
  getIPKey rtb ip +:+ ":last_updated" <> getIPKey rtb ip' +:+ ":last_updated" /\
  getIPKey rtb ip +:+ ":tokens" <> getIPKey rtb ip' +:+ ":last_updated" /\
  getIPKey rtb ip +:+ ":last_updated" <> getIPKey rtb ip' +:+ ":tokens".
Proof.
  intros Hne. rewrite !tokensKey_eq, !lastUpdatedKey_eq. repeat split.
  - unfold getIPKey. intros H. apply append_inj_l in H. contradiction.
  - intros H. apply tokensKey_inj in H. contradiction.
  - intros H. apply lastUpdatedKey_inj in H. contradiction.
  - apply tokensKey_neq_lastUpdatedKey.
  - apply not_eq_sym, tokensKey_neq_lastUpdatedKey.
Qed.

(** X2.  A call for one identifier does not touch another: after a call
    for [ip], whatever its outcome, the bucket of a different identifier
    reads as before, and a call for it is decided as it would have been. *)
Theorem AllowRequest_isolated
    (rtb rtb2 : RedisTokenBucket) (ip ip' : string) (w : World) :
  ip <> ip' ->
  let w' := snd (AllowRequest rtb ip w) in
  tokens_of rtb2 w' ip' = tokens_of rtb2 w ip' /\
  lastUpdated_of w' ip' = lastUpdated_of w ip' /\
  refilled rtb2 w' ip' = refilled rtb2 w ip' /\
  fst (AllowRequest rtb2 ip' w') = fst (AllowRequest rtb2 ip' w).
Proof.
  intros Hne w'. subst w'.
  assert (Ht : read (snd (AllowRequest rtb ip w)) (tokensKey ip')
               = read w (tokensKey ip')).
  { apply read_after_call.
    - intros H. apply tokensKey_inj in H. congruence.
    - apply tokensKey_neq_lastUpdatedKey. }
  assert (Hl : read (snd (AllowRequest rtb ip w)) (lastUpdatedKey ip')
               = read w (lastUpdatedKey ip')).
  { apply read_after_call.
    - apply not_eq_sym, tokensKey_neq_lastUpdatedKey.
    - intros H. apply lastUpdatedKey_inj in H. congruence. }
  assert (Htok : tokens_of rtb2 (snd (AllowRequest rtb ip w)) ip'
                 = tokens_of rtb2 w ip') by (unfold tokens_of; now rewrite Ht).
  assert (Hlu : lastUpdated_of (snd (AllowRequest rtb ip w)) ip'
                = lastUpdated_of w ip')
    by (unfold lastUpdated_of; now rewrite Hl, unix_time_after_call).
  assert (Hre : refilled rtb2 (snd (AllowRequest rtb ip w)) ip'
                = refilled rtb2 w ip')
    by (unfold refilled; now rewrite Htok, Hlu, unix_time_after_call).
  repeat split; trivial.
  rewrite (AllowRequest_run rtb2 ip' (snd (AllowRequest rtb ip w))).
  rewrite (AllowRequest_run rtb2 ip' w), Hre. unfold settle.
  rewrite exec_err_after_call.
  destruct (float64.geb (refilled rtb2 w ip') 1);
    [destruct (exec_err (server w))|]; reflexivity.
Qed.

(** X3.  Whatever the store holds, even a count written by someone else,
    the refill step never yields more than the capacity. *)
Theorem refilled_never_above_capacity
    (rtb : RedisTokenBucket) (ip : string) (w : World) :
  (capacity rtb <? refilled rtb w ip)%float = false.
Proof. unfold refilled, refill. apply Min_not_above. Qed.

(** X4.  A rejection is stable within the second: once a call is denied,
    any number of further calls for the identifier are denied too, and
    none of them changes the server. *)
Theorem denied_stays_denied
    (rtb : RedisTokenBucket) (ip : string) (w : World) :
  float64.geb (refilled rtb w ip) 1 = false ->
  forall n : nat,
    fst (AllowRequest rtb ip (calls n rtb ip w)) = false /\
    server (calls n rtb ip w) = server w /\
    unix_time (calls n rtb ip w) = unix_time w.
Proof.
  intros Hge n. revert w Hge. induction n as [|n IH]; intros w Hge; cbn [calls].
  - rewrite AllowRequest_run, settle_denied by assumption. auto.
  - assert (Hw : snd (AllowRequest rtb ip w) = denied_world w ip (refilled rtb w ip))
      by (rewrite AllowRequest_run, settle_denied by assumption; reflexivity).
    rewrite Hw.
    assert (Hge' : float64.geb
                     (refilled rtb (denied_world w ip (refilled rtb w ip)) ip) 1
                   = false)
      by (rewrite <- Hge; f_equal; apply refilled_ext; reflexivity).
    destruct (IH _ Hge') as (H1 & H2 & H3). auto.
Qed.

(** X5.  A stored count that parses to NaN locks the identifier out: at
    every later (or earlier) time the call is denied and writes nothing,
    so the NaN stays where it is. *)
Theorem nan_tokens_lock_out
    (rtb : RedisTokenBucket) (ip : string) (w : World) :
  tokens_of rtb w ip = nan ->
  forall seconds : Z,
    fst (AllowRequest rtb ip (sleep seconds w)) = false /\
    server (snd (AllowRequest rtb ip (sleep seconds w))) = server w /\
    tokens_of rtb (snd (AllowRequest rtb ip (sleep seconds w))) ip = nan.
Proof.
  intros Hnan seconds.
  assert (Ht : tokens_of rtb (sleep seconds w) ip = nan) by exact Hnan.
  assert (Hge : float64.geb (refilled rtb (sleep seconds w) ip) 1 = false).
  { unfold refilled, refill. rewrite Ht, add_nan_l. apply Min_nan_denied. }
  rewrite AllowRequest_run, settle_denied by assumption. auto.
Qed.

(** X6.  With a capacity of at least one, whole or not, and a finite
    refill rate, the first request of an identifier with no stored state
    passes on a server that answers; it leaves [capacity - 1] tokens and
    the current time under the two keys. *)
Theorem first_request_allowed
    (rtb : RedisTokenBucket) (ip : string) (w : World) :
  float64.geb (capacity rtb) 1 = true ->
  is_finite (refillRate rtb) = true ->
  healthy w ip -> unseen w ip ->
  let w' := snd (AllowRequest rtb ip w) in
  fst (AllowRequest rtb ip w) = true /\
  kv (server w') !! tokensKey ip =
    Some (Entry (FormatFloat (capacity rtb - 1)%float) (ttl rtb)) /\
  kv (server w') !! lastUpdatedKey ip =
    Some (Entry (FormatInt (unix_time w)) (ttl rtb)).
Proof.
  intros Hc Hr Hh Hu w'. subst w'.
  pose proof (unseen_holds rtb ip w Hh Hu) as Hw.
  destruct Hh as (_ & _ & He).
  assert (Hre : refilled rtb w ip = capacity rtb).
  { rewrite (holds_refilled _ _ _ _ _ Hw). unfold refill.
    rewrite int64_sub_diag, add_no_refill_ge_one by assumption.
    apply Min_self_ge_one, Hc. }
  rewrite AllowRequest_run, Hre, settle_allowed by assumption.
  cbn [fst snd allowed_world server kv].
  rewrite committed_tokens, committed_lastUpdated. auto.
Qed.

(** X7.  Waiting refills the bucket by whole tokens.  Let capacity [C]
    and rate [R] be whole numbers, and let the store hold [t] whole
    tokens stamped [s] seconds ago, all sums staying below 2^53.  Then on
    a server that answers and reads back what the limiter wrote, exactly
    [min(C, t + s * R)] successive calls pass, and the next is denied. *)
Theorem waiting_refills_whole_tokens
    (C R t s : Z) (rtb : RedisTokenBucket) (ip : string) (w : World) :
  capacity rtb = float64.of_int64 C ->
  refillRate rtb = float64.of_int64 R ->
  0 <= C <= 2 ^ 53 -> 0 <= R <= 2 ^ 53 -> 0 <= t -> 0 <= s <= 2 ^ 53 ->
  t + s * R < 2 ^ 53 ->
  healthy w ip ->
  tokens_of rtb w ip = float64.of_int64 t ->
  unix_time w - lastUpdated_of w ip = s ->
  (forall k, 0 <= k < C ->
     ParseFloat (FormatFloat (float64.of_int64 k)) = Some (float64.of_int64 k)) ->
  ParseInt (FormatInt (unix_time w)) = Some (unix_time w) ->
  let K := Z.min C (t + s * R) in
  (forall n : nat, Z.of_nat n < K ->
     fst (AllowRequest rtb ip (calls n rtb ip w)) = true) /\
  fst (AllowRequest rtb ip (calls (Z.to_nat K) rtb ip w)) = false.
Proof.
  intros Hc Hr HC HR Ht Hs Hsum Hh Htok Hlu Hpf Hpi K.
  assert (HK : 0 <= K <= C) by (subst K; nia).
  assert (Hsub : int64.sub (unix_time w) (lastUpdated_of w ip) = s).
  { rewrite int64_sub_exact; [exact Hlu|]. rewrite Hlu.
    unfold int64.in_range, int64.min_int, int64.max_int.
    change (2 ^ 53) with 9007199254740992 in Hs. lia. }
  assert (Hre : refilled rtb w ip = float64.of_int64 K).
  { unfold refilled. rewrite Htok.
    apply (refill_whole_law rtb C R t s); trivial. }
  assert (Hfin : is_finite (refillRate rtb) = true)
    by (rewrite Hr; apply is_finite_whole; lia).
  (* the first call, when there is a token *)
  assert (Hfirst : 1 <= K ->
            fst (AllowRequest rtb ip w) = true /\
            holds rtb ip (unix_time w) (float64.of_int64 (K - 1))
                  (snd (AllowRequest rtb ip w))).
  { intros H1. pose proof Hh as (Hg1 & Hg2 & He).
    assert (Hge : float64.geb (float64.of_int64 K) 1 = true)
      by (rewrite of_int64_geb_one by lia; apply Z.leb_le; lia).
    rewrite AllowRequest_run, Hre, settle_allowed by assumption.
    cbn [fst snd]. split; [reflexivity|].
    unfold holds, healthy, tokens_of, lastUpdated_of, read.
    cbn [allowed_world unix_time server kv get_err exec_err].
    rewrite Hg1, Hg2, committed_tokens, committed_lastUpdated. cbn [value].
    rewrite of_int64_sub_one, Hpf, Hpi by lia. auto. }
  assert (Hinv : forall n : nat, 1 <= K -> Z.of_nat n <= K - 1 ->
            holds rtb ip (unix_time w) (float64.of_int64 (K - 1 - Z.of_nat n))
                  (calls (S n) rtb ip w)).
  { intros n H1 Hn. cbn [calls].
    apply (calls_whole rtb ip (unix_time w) C); trivial; try lia.
    apply Hfirst, H1. }
  assert (Hnext : forall k w1, 0 <= k <= C ->
            holds rtb ip (unix_time w) (float64.of_int64 k) w1 ->
            fst (AllowRequest rtb ip w1) = (1 <=? k)).
  { intros k w1 Hk Hw1.
    assert (Hrf : refill rtb (unix_time w) (float64.of_int64 k) (unix_time w)
                  = float64.of_int64 k)
      by (apply (refill_whole rtb _ C); trivial; lia).
    destruct (Z.leb_spec 1 k) as [H1 | H1].
    - apply (holds_step rtb ip (unix_time w) (float64.of_int64 k)
               (float64.of_int64 k)); trivial.
      + rewrite of_int64_geb_one by lia. apply Z.leb_le. lia.
      + rewrite of_int64_sub_one by lia. apply Hpf. lia.
    - apply (holds_denied rtb ip (unix_time w) _ _ Hw1).
      rewrite Hrf, of_int64_geb_one by lia. apply Z.leb_gt. lia. }
  split.
  - intros [|n] Hn.
    + cbn [calls]. apply Hfirst. lia.
    + rewrite (Hnext (K - 1 - Z.of_nat n)); [apply Z.leb_le; lia | lia |].
      apply Hinv; lia.
  - destruct (Z.eq_dec K 0) as [HK0 | HK0].
    + rewrite HK0. change (calls (Z.to_nat 0) rtb ip w) with w.
      rewrite AllowRequest_run, Hre, HK0, settle_denied by reflexivity.
      reflexivity.
    + replace (Z.to_nat K) with (S (Z.to_nat (K - 1))) by lia.
      rewrite (Hnext 0); [reflexivity | lia |].
      replace 0 with (K - 1 - Z.of_nat (Z.to_nat (K - 1))) at 1 by lia.
      apply Hinv; lia.
Qed.

End More.

(** * The HTTP side *)

Lemma wrap_exact_iff (z : Z) : int64.wrap z = z <-> int64.in_range z.
Proof.
  unfold int64.wrap, int64.in_range, int64.min_int, int64.max_int.
  split.
  - intros H.
    pose proof (Z.mod_pos_bound (z + 2 ^ 63) (2 ^ 64) ltac:(lia)). lia.
  - intros H. rewrite Z.mod_small by lia. lia.
Qed.

Section Serving.

Context {conv : Strconv}.

Lemma AllowRequest_fst (rtb : RedisTokenBucket) (ip : string) (w : World) :
  fst (AllowRequest rtb ip w) =
    float64.geb (refilled rtb w ip) 1 && negb (exec_err (server w)).
Proof.
  rewrite AllowRequest_run. unfold settle.
  destruct (float64.geb _ 1); [destruct (exec_err _)|]; reflexivity.
Qed.

Lemma RateLimitMiddleware_identified (rl : RedisTokenBucket) (url msg : string)
    (c : Context) (w : World) :
  String.eqb (client_ip (Request c)) "" = false ->
  RateLimitMiddleware rl url msg c w =
    (Abort
       (write
          (if fst (AllowRequest rl (client_ip (Request c)) w)
           then Redirect StatusTemporaryRedirect url
           else JSON StatusTooManyRequests
                  (<["error" := msg]> {[ "ip" := client_ip (Request c) ]}))
          (logrus
             ((if fst (AllowRequest rl (client_ip (Request c)) w)
               then InfoAllowed else InfoExceeded)
                (client_ip (Request c)) (url_path (Request c))) c)),
     snd (AllowRequest rl (client_ip (Request c)) w)).
Proof.
  intros E. unfold RateLimitMiddleware. rewrite E.
  unfold mbind, M_bind, mret, M_ret.
  destruct (AllowRequest rl (client_ip (Request c)) w) as [[|] w']; reflexivity.
Qed.

Lemma RateLimitMiddleware_aborts (rl : RedisTokenBucket) (url msg : string)
    (c : Context) (w : World) :
  aborted (fst (RateLimitMiddleware rl url msg c w)) = true.
Proof.
  destruct (String.eqb (client_ip (Request c)) "") eqn:E.
  - unfold RateLimitMiddleware. rewrite E. reflexivity.
  - rewrite RateLimitMiddleware_identified by exact E. reflexivity.
Qed.

(** Whatever follows the two middlewares in a chain is never run. *)
Lemma run_handlers_cut (rl : RedisTokenBucket) (url msg : string)
    (rest : list HandlerFunc) (c : Context) (w : World) :
  aborted c = false ->
  run_handlers (Recovery :: RateLimitMiddleware rl url msg :: rest) c w =
    RateLimitMiddleware rl url msg c w.
Proof.
  intros Ec.
  pose proof (RateLimitMiddleware_aborts rl url msg c w) as Ha.
  cbn [run_handlers]. unfold Recovery.
  unfold mbind, M_bind, mret, M_ret in *. rewrite Ec.
  destruct (RateLimitMiddleware rl url msg c w) as [c' w'].
  cbn [fst] in Ha. rewrite Ha. reflexivity.
Qed.

Lemma RateLimitMiddleware_written (rl : RedisTokenBucket) (url msg : string)
    (c : Context) (w : World) :
  written (fst (RateLimitMiddleware rl url msg c w)) =
    written c ++
    [ if String.eqb (client_ip (Request c)) "" then
        JSON 400 {[ "error" := "Unable to determine IP" ]}
      else if float64.geb (refilled rl w (client_ip (Request c))) 1
              && negb (exec_err (server w))
      then Redirect 307 url
      else JSON 429 (<["error" := msg]> {[ "ip" := client_ip (Request c) ]}) ].
Proof.
  destruct (String.eqb (client_ip (Request c)) "") eqn:E.
  - unfold RateLimitMiddleware. rewrite E. reflexivity.
  - rewrite RateLimitMiddleware_identified by exact E.
    rewrite <- AllowRequest_fst. cbn [fst Abort write written].
    destruct (fst (AllowRequest rl (client_ip (Request c)) w)); reflexivity.
Qed.

(** X8. The answer of the middleware.  It writes exactly one response and
    aborts the chain: status 400 when no client address could be
    determined, and then the limiter is not called and the store is left
    alone; otherwise a 307 redirect to the success URL exactly when the
    refilled count is at least 1 and the commit succeeded, and status 429
    with the failure message and the address in every other case.  The
    world is then the one [AllowRequest] leaves. *)
Theorem RateLimitMiddleware_response (rl : RedisTokenBucket)
    (url msg : string) (c : Context) (w : World) :
  let ip := client_ip (Request c) in
  let out := RateLimitMiddleware rl url msg c w in
  aborted (fst out) = true /\
  written (fst out) =
    written c ++
    [ if String.eqb ip "" then
        JSON 400 {[ "error" := "Unable to determine IP" ]}
      else if float64.geb (refilled rl w ip) 1 && negb (exec_err (server w))
      then Redirect 307 url
      else JSON 429 (<["error" := msg]> {[ "ip" := ip ]}) ] /\
  snd out = (if String.eqb ip "" then w else snd (AllowRequest rl ip w)).
Proof.
  intros ip out. subst out ip.
  split; [apply RateLimitMiddleware_aborts|].
  split; [apply RateLimitMiddleware_written|].
  destruct (String.eqb (client_ip (Request c)) "") eqn:E.
  - unfold RateLimitMiddleware. rewrite E. reflexivity.
  - rewrite RateLimitMiddleware_identified by exact E. reflexivity.
Qed.

(** X9. A commit that fails is answered like a rejection.  When the
    address is known, the refilled count is at least 1 and the store
    refuses the commit, the client gets status 429 with the failure
    message, the very response an exhausted bucket gets, and the store is
    unchanged. *)
Theorem store_failure_answered_as_rejection (rl : RedisTokenBucket)
    (url msg : string) (c : Context) (w w0 : World) :
  String.eqb (client_ip (Request c)) "" = false ->
  float64.geb (refilled rl w (client_ip (Request c))) 1 = true ->
  exec_err (server w) = true ->
  float64.geb (refilled rl w0 (client_ip (Request c))) 1 = false ->
  written (fst (RateLimitMiddleware rl url msg c w)) =
    written c ++
    [JSON 429 (<["error" := msg]> {[ "ip" := client_ip (Request c) ]})] /\
  written (fst (RateLimitMiddleware rl url msg c w)) =
    written (fst (RateLimitMiddleware rl url msg c w0)) /\
  server (snd (RateLimitMiddleware rl url msg c w)) = server w.
Proof.
  intros E Hge He Hlt.
  rewrite !RateLimitMiddleware_identified by exact E.
  rewrite !AllowRequest_fst, Hge, He, Hlt. cbn [andb negb fst snd].
  repeat split.
  rewrite AllowRequest_run, settle_failed by assumption. reflexivity.
Qed.

(** X10. The routes of [main] never answer.  On both registered chains
    the rate-limiting middleware aborts, so the chain does what the
    middleware alone does: the handlers of [/api] and [/health] are not
    run, and the status written is 400, 429 or 307, never 200 or 503. *)
Theorem routes_never_answer (rl : RedisTokenBucket) (url msg : string)
    (ping_err : bool) (r : request) (w : World) :
  run_handlers (api_chain rl url msg) (new_context r) w =
    RateLimitMiddleware rl url msg (new_context r) w /\
  run_handlers (health_chain rl url msg ping_err) (new_context r) w =
    RateLimitMiddleware rl url msg (new_context r) w /\
  exists resp,
    written (fst (RateLimitMiddleware rl url msg (new_context r) w)) = [resp] /\
    (status resp = 400 \/ status resp = 429 \/ status resp = 307).
Proof.
  split; [apply run_handlers_cut; reflexivity|].
  split; [apply run_handlers_cut; reflexivity|].
  rewrite RateLimitMiddleware_written. cbn [new_context written app].
  eexists. split; [reflexivity|].
  destruct (String.eqb _ ""); [left; reflexivity|].
  destruct (_ && _); [right; right|right; left]; reflexivity.
Qed.

(** X11. A health check spends a token.  A [GET /health] from an address
    whose refilled count is at least 1, on a store that accepts the
    commit, is redirected to the success URL and the bucket of that
    address is written with one token less. *)
Theorem health_check_spends_token (rl : RedisTokenBucket) (url msg : string)
    (ping_err : bool) (r : request) (w : World) :
  String.eqb (client_ip r) "" = false ->
  float64.geb (refilled rl w (client_ip r)) 1 = true ->
  exec_err (server w) = false ->
  let out := run_handlers (health_chain rl url msg ping_err) (new_context r) w in
  written (fst out) = [Redirect 307 url] /\
  kv (server (snd out)) !! tokensKey (client_ip r) =
    Some (Entry (FormatFloat (refilled rl w (client_ip r) - 1)%float) (ttl rl)).
Proof.
  intros E Hge He out. subst out.
  unfold health_chain. rewrite run_handlers_cut by reflexivity.
  rewrite RateLimitMiddleware_identified by exact E.
  cbn [new_context Request].
  rewrite AllowRequest_fst, Hge, He. cbn [andb negb fst snd].
  split; [reflexivity|].
  rewrite AllowRequest_run, settle_allowed by assumption.
  cbn [snd allowed_world server kv]. apply committed_tokens.
Qed.

End Serving.

(** * Start-up *)

Lemma getEnvOrFatal_started (env : gmap string string) (key v : string) :
  getEnvOrFatal env key = Started v <-> Getenv env key = v /\ v <> "".
Proof.
  unfold getEnvOrFatal.
  destruct (String.eqb_spec (Getenv env key) "") as [E|E].
  - split; [discriminate|]. intros [<- H]. contradiction.
  - split.
    + intros [= <-]. split; [reflexivity|exact E].
    + intros [<- _]. reflexivity.
Qed.

Lemma getEnvOrFatal_set (env : gmap string string) (key : string) :
  String.eqb (Getenv env key) "" = false ->
  getEnvOrFatal env key = Started (Getenv env key).
Proof. unfold getEnvOrFatal. intros ->. reflexivity. Qed.

Lemma getEnvOrFatal_missing (env : gmap string string) (key : string) :
  String.eqb (Getenv env key) "" = true ->
  getEnvOrFatal env key = Fatal (MissingEnv key).
Proof. unfold getEnvOrFatal. intros ->. reflexivity. Qed.

Section Starting.

Context {conv : Strconv}.

Lemma main_setup_started (env : gmap string string) (ping_err : bool)
    (s : Setup) :
  main_setup env ping_err = Started s ->
  exists (c r : float) (n : Z),
    Forall (fun k => Getenv env k <> "") required_env /\
    ParseFloat (Getenv env "RATE_LIMIT") = Some c /\
    ParseFloat (Getenv env "REFILL_RATE") = Some r /\
    ParseInt (Getenv env "TTL_SECONDS") = Some n /\
    ping_err = false /\
    s = MkSetup
          (NewClient (Getenv env "REDIS_HOST" +:+ ":" +:+ Getenv env "REDIS_PORT") 0)
          (NewRedisTokenBucket
             (NewClient (Getenv env "REDIS_HOST" +:+ ":" +:+ Getenv env "REDIS_PORT") 0)
             c r (seconds n))
          (Getenv env "SUCCESS_URL")
          "Rate limit exceeded. Please try again later.".
Proof.
  unfold main_setup, required_env.
  repeat
    (match goal with
     | |- context [getEnvOrFatal env ?k] =>
         destruct (getEnvOrFatal env k) eqn:?; [|discriminate]
     end; cbn [mbind startup_bind]).
  repeat match goal with
         | H : getEnvOrFatal _ _ = Started _ |- _ =>
             apply getEnvOrFatal_started in H; destruct H as [<- ?]
         end.
  destruct (ParseFloat (Getenv env "RATE_LIMIT")) as [c|]; [|discriminate].
  destruct (ParseFloat (Getenv env "REFILL_RATE")) as [r|]; [|discriminate].
  destruct (ParseInt (Getenv env "TTL_SECONDS")) as [n|]; [|discriminate].
  cbn [mbind startup_bind]. destruct ping_err; [discriminate|].
  intros [= <-]. exists c, r, n.
  repeat split; try reflexivity. repeat constructor; assumption.
Qed.

(** X12. The first missing variable stops [main].  If one of the six
    required variables is unset or empty, start-up is fatal and names the
    first such variable in the order of [main], whatever the other
    variables hold and before any number is parsed or Redis is pinged. *)
Theorem first_missing_variable_is_fatal (env : gmap string string)
    (ping_err : bool) (key : string) :
  find (fun k => String.eqb (Getenv env k) "") required_env = Some key ->
  main_setup env ping_err = Fatal (MissingEnv key).
Proof.
  unfold required_env, main_setup. cbn [find].
  repeat
    (match goal with
     | |- context [String.eqb (Getenv env ?k) ""] =>
         let E := fresh "E" in
         destruct (String.eqb (Getenv env k) "") eqn:E;
         [ intros [= <-]; rewrite (getEnvOrFatal_missing env k E); reflexivity
         | rewrite (getEnvOrFatal_set env k E); cbn [mbind startup_bind] ]
     end).
  intros H. discriminate H.
Qed.

(** X13. When [main] gets to serve.  Start-up succeeds exactly when the six
    variables are non-empty, RATE_LIMIT and REFILL_RATE parse as floats,
    TTL_SECONDS parses as an integer and Redis answers the ping.  The
    limiter is then built from the parsed values as they are, with no
    check of sign or range. *)
Theorem main_setup_started_iff (env : gmap string string) (ping_err : bool)
    (s : Setup) :
  main_setup env ping_err = Started s <->
  exists (c r : float) (n : Z),
    Forall (fun k => Getenv env k <> "") required_env /\
    ParseFloat (Getenv env "RATE_LIMIT") = Some c /\
    ParseFloat (Getenv env "REFILL_RATE") = Some r /\
    ParseInt (Getenv env "TTL_SECONDS") = Some n /\
    ping_err = false /\
    s = MkSetup
          (NewClient (Getenv env "REDIS_HOST" +:+ ":" +:+ Getenv env "REDIS_PORT") 0)
          (NewRedisTokenBucket
             (NewClient (Getenv env "REDIS_HOST" +:+ ":" +:+ Getenv env "REDIS_PORT") 0)
             c r (seconds n))
          (Getenv env "SUCCESS_URL")
          "Rate limit exceeded. Please try again later.".
Proof.
  split; [apply main_setup_started|].
  unfold main_setup, required_env.
  intros (c & r & n & Hall & Hc & Hr & Hn & -> & ->).
  repeat match goal with
         | H : Forall _ (_ :: _) |- _ =>
             apply Forall_cons in H; destruct H as [? H]
         end.
  repeat
    (match goal with
     | |- context [getEnvOrFatal env ?k] =>
         replace (getEnvOrFatal env k) with (Started (Getenv env k))
           by (symmetry; apply getEnvOrFatal_started; split;
               [reflexivity|assumption])
     end; cbn [mbind startup_bind]).
  rewrite Hc, Hr, Hn. reflexivity.
Qed.

(** X14. The time to live of the keys.  Once started, the limiter's TTL is
    TTL_SECONDS seconds exactly when that number lies between -9223372036
    and 9223372036; outside, the product with [time.Second] wraps around
    in 64 bits and the TTL is another duration. *)
Theorem main_setup_ttl (env : gmap string string) (ping_err : bool)
    (s : Setup) (n : Z) :
  main_setup env ping_err = Started s ->
  ParseInt (Getenv env "TTL_SECONDS") = Some n ->
  (ttl (setup_limiter s) = n * Second <->
   -9223372036 <= n <= 9223372036).
Proof.
  intros Hs Hn. apply main_setup_started in Hs.
  destruct Hs as (c & r & n' & _ & _ & _ & Hn' & _ & ->).
  assert (n' = n) as -> by congruence.
  cbn [setup_limiter NewRedisTokenBucket ttl]. unfold seconds.
  rewrite wrap_exact_iff.
  unfold int64.in_range, int64.min_int, int64.max_int, Second. lia.
Qed.

End Starting.

(** * From the environment to the answer *)

Lemma lex_total (a b : Z * Z * Z) : lex_lt a b \/ lex_le b a.
Proof.
  destruct a as [[a1 a2] a3], b as [[b1 b2] b3]. unfold lex_le, lex_lt.
  destruct (Z.lt_total a1 b1) as [?|[->|?]]; [lia| |lia].
  destruct (Z.lt_total a2 b2) as [?|[->|?]]; [lia| |lia].
  destruct (Z.lt_total a3 b3) as [?|[->|?]]; [lia| |lia].
  right. right. reflexivity.
Qed.

(** A minimum with the capacity is at least one only if the capacity is. *)
Lemma Min_ge_one_capacity (c y : float) :
  float64.geb (math.Min c y) 1 = true -> float64.geb c 1 = true.
Proof.
  unfold math.Min, float64.geb.
  destruct (math.IsNegInf c || math.IsNegInf y); [discriminate|].
  destruct (math.IsNaN c || math.IsNaN y) eqn:Hnan; [discriminate|].
  apply orb_false_iff in Hnan. destruct Hnan as [Hc Hy].
  apply not_nan_rank in Hc, Hy. destruct Hc as (a & Ha), Hy as (b & Hb).
  destruct ((c =? 0)%float && (c =? y)%float) eqn:Hz.
  - apply andb_true_iff in Hz. destruct Hz as [_ Hz].
    apply eqb_rank in Hz. destruct Hz as (a' & Ha' & Hb').
    destruct (math.Signbit c); [auto|].
    intros H. apply leb_rank in H. destruct H as (o & b' & Ho & Hb'' & Hle).
    eapply leb_of_rank; eauto. congruence.
  - destruct (c <? y)%float eqn:Hlt; [auto|].
    intros H. apply leb_rank in H. destruct H as (o & b' & Ho & Hb' & Hle).
    assert (b' = b) as -> by congruence.
    destruct (lex_total a b) as [Hab | Hba].
    + rewrite (ltb_of_rank c y a b Ha Hb Hab) in Hlt. discriminate.
    + eapply leb_of_rank; eauto. eapply lex_le_trans; eauto.
Qed.

Section EndToEnd.

Context {conv : Strconv}.

(** X15. A RATE_LIMIT that is not at least 1 starts and then rejects
    everyone.  Start-up accepts such a value (a fraction, zero, a negative
    number, NaN); afterwards every request with a known address, whatever
    the store holds and whatever the time, is answered 429 with the
    failure message, and the store is never written. *)
Theorem low_rate_limit_rejects_everyone (env : gmap string string)
    (ping_err : bool) (s : Setup) (c : float) (r : request) (w : World) :
  main_setup env ping_err = Started s ->
  ParseFloat (Getenv env "RATE_LIMIT") = Some c ->
  float64.geb c 1 = false ->
  String.eqb (client_ip r) "" = false ->
  let out := run_handlers
               (api_chain (setup_limiter s) (setup_successURL s)
                  (setup_failureMessage s))
               (new_context r) w in
  written (fst out) =
    [JSON 429 (<["error" := "Rate limit exceeded. Please try again later."]>
                 {[ "ip" := client_ip r ]})] /\
  server (snd out) = server w.
Proof.
  intros Hs Hc Hlow Hip out. subst out.
  apply main_setup_started in Hs.
  destruct Hs as (c' & r' & n & _ & Hc' & _ & _ & _ & ->).
  assert (c' = c) as -> by congruence.
  cbn [setup_limiter setup_successURL setup_failureMessage].
  unfold api_chain. rewrite run_handlers_cut by reflexivity.
  rewrite RateLimitMiddleware_identified by exact Hip.
  cbn [new_context Request].
  set (rl := NewRedisTokenBucket _ c r' (seconds n)).
  assert (Hge : float64.geb (refilled rl w (client_ip r)) 1 = false).
  { destruct (float64.geb (refilled rl w (client_ip r)) 1) eqn:E; [|reflexivity].
    unfold refilled, refill in E. apply Min_ge_one_capacity in E.
    cbn [rl NewRedisTokenBucket capacity] in E. congruence. }
  rewrite AllowRequest_fst, Hge. cbn [andb fst snd].
  split; [reflexivity|].
  rewrite AllowRequest_run, settle_denied by exact Hge. reflexivity.
Qed.

End EndToEnd.

(** ** Expiry *)

Section Expiry.

Context {conv : Strconv}.

Lemma committed_expire (rtb : RedisTokenBucket) (ip : string) (w : World)
    (x : float) :
  committed rtb (expire ip w) ip x = committed rtb w ip x.
Proof.
  apply map_eq. intros k.
  destruct (decide (k = lastUpdatedKey ip)) as [-> | Hl].
  { rewrite !committed_lastUpdated. reflexivity. }
  destruct (decide (k = tokensKey ip)) as [-> | Ht].
  { rewrite !committed_tokens. reflexivity. }
  rewrite !committed_other by assumption.
  unfold expire, set_kv. cbn [server kv].
  rewrite !lookup_delete_ne by (apply not_eq_sym; assumption). reflexivity.
Qed.

(** X16. Expiry after a full refill cannot be seen.  Let capacity [C >= 1]
    and rate [R] be whole numbers and let a bucket read as [t] tokens
    last updated [s] seconds ago, with [t + s * R >= C]: the bucket would
    refill completely.  Whether or not its two keys have expired in the
    meantime, the call is allowed and leaves the same server behind. *)
Theorem expiry_after_full_refill
    (C R t s : Z) (rtb : RedisTokenBucket) (ip : string) (w : World) :
  capacity rtb = float64.of_int64 C ->
  refillRate rtb = float64.of_int64 R ->
  1 <= C <= 2 ^ 53 -> 0 <= R <= 2 ^ 53 -> 0 <= t -> 0 <= s <= 2 ^ 53 ->
  C <= t + s * R < 2 ^ 53 ->
  healthy w ip ->
  tokens_of rtb w ip = float64.of_int64 t ->
  unix_time w - lastUpdated_of w ip = s ->
  fst (AllowRequest rtb ip w) = true /\
  fst (AllowRequest rtb ip (expire ip w)) = true /\
  server (snd (AllowRequest rtb ip (expire ip w))) =
    server (snd (AllowRequest rtb ip w)).
Proof.
  intros Hc Hr HC HR Ht Hs Hsum Hh Htok Hlu.
  assert (Hsub : int64.sub (unix_time w) (lastUpdated_of w ip) = s).
  { rewrite int64_sub_exact; [exact Hlu|]. rewrite Hlu.
    unfold int64.in_range, int64.min_int, int64.max_int.
    change (2 ^ 53) with 9007199254740992 in Hs. lia. }
  assert (Hge : float64.geb (capacity rtb) 1 = true).
  { rewrite Hc, of_int64_geb_one by lia. apply Z.leb_le. lia. }
  assert (Hfin : is_finite (refillRate rtb) = true)
    by (rewrite Hr; apply is_finite_whole; lia).
  assert (Hw : refilled rtb w ip = capacity rtb).
  { unfold refilled. rewrite Htok.
    rewrite (refill_whole_law rtb C R t s) by (assumption || lia).
    rewrite Z.min_l by lia. symmetry. exact Hc. }
  assert (Hh' : healthy (expire ip w) ip) by exact Hh.
  assert (Hu : unseen (expire ip w) ip).
  { unfold unseen, expire, set_kv. cbn [server kv]. split.
    - rewrite lookup_delete_ne
        by (apply not_eq_sym, tokensKey_neq_lastUpdatedKey).
      apply lookup_delete_eq.
    - apply lookup_delete_eq. }
  assert (Hx : refilled rtb (expire ip w) ip = capacity rtb).
  { rewrite (holds_refilled _ _ _ _ _ (unseen_holds rtb ip _ Hh' Hu)).
    unfold refill.
    rewrite int64_sub_diag, add_no_refill_ge_one by assumption.
    apply Min_self_ge_one, Hge. }
  destruct Hh as (_ & _ & He).
  rewrite !AllowRequest_run, Hw, Hx.
  rewrite !settle_allowed by assumption.
  cbn [fst snd allowed_world server].
  rewrite committed_expire. auto.
Qed.

End Expiry.

(** * The limiter at work

    From here on the conversions are the decimal ones. *)

#[local] Existing Instance DecimalStrconv.conv.

(** The first test of the repository: capacity 3, one token per second.
    Three calls pass, the fourth is rejected, and one second later a call
    passes again. *)
Example basic_functionality :
  let w0 := fresh_world test_time in
  let w1 := calls 1 basic_limiter test_ip w0 in
  let w2 := calls 2 basic_limiter test_ip w0 in
  let w3 := calls 3 basic_limiter test_ip w0 in
  let w4 := calls 4 basic_limiter test_ip w0 in
  fst (AllowRequest basic_limiter test_ip w0) = true /\
  fst (AllowRequest basic_limiter test_ip w1) = true /\
  fst (AllowRequest basic_limiter test_ip w2) = true /\
  fst (AllowRequest basic_limiter test_ip w3) = false /\
  fst (AllowRequest basic_limiter test_ip (sleep 1 w4)) = true.
Proof. vm_compute. repeat split. Qed.

(** A read that fails is taken for a full bucket: the stored count is 0,
    the [GET] of it fails, and the call passes. *)
Example read_failure_defaults :
  let w := break_get (tokensKey test_ip) drained_world in
  kv (server w) !! tokensKey test_ip = Some (Entry "0" 0) /\
  read w (tokensKey test_ip) = RedisError /\
  tokens_of basic_limiter w test_ip = 3%float /\
  fst (AllowRequest basic_limiter test_ip w) = true.
Proof. vm_compute. repeat split. Qed.

(** A timestamp in the future gives a negative [elapsedSeconds], which
    lowers [refilled]: two tokens are stored, and the call is rejected. *)
Example negative_elapsed_propagates :
  tokens_of basic_limiter skewed_world test_ip = 2%float /\
  int64.sub (unix_time skewed_world) (lastUpdated_of skewed_world test_ip) = -10 /\
  refilled basic_limiter skewed_world test_ip = (-8)%float /\
  fst (AllowRequest basic_limiter test_ip skewed_world) = false.
Proof. vm_compute. repeat split. Qed.

(** ** The theorems on concrete worlds *)

(** C2 on a fresh identifier: the commit is sent and the call passes. *)
Lemma AllowRequest_commit_witness :
  float64.geb (refilled basic_limiter (fresh_world test_time) test_ip) 1 = true /\
  fst (AllowRequest basic_limiter test_ip (fresh_world test_time)) = true /\
  kv (server (snd (AllowRequest basic_limiter test_ip (fresh_world test_time))))
    !! tokensKey test_ip = Some (Entry "2" (10 * Second)).
Proof.
  assert (H : float64.geb (refilled basic_limiter (fresh_world test_time) test_ip) 1
              = true) by (vm_compute; reflexivity).
  split; [exact H|].
  destruct (AllowRequest_commit basic_limiter test_ip (fresh_world test_time) H)
    as (_ & Hok & Htok & _).
  split; [exact Hok | exact Htok].
Defined.

(** C3 on an emptied bucket: nothing is written. *)
Lemma AllowRequest_denied_no_write_witness :
  float64.geb (refilled basic_limiter drained_world test_ip) 1 = false /\
  fst (AllowRequest basic_limiter test_ip drained_world) = false /\
  server (snd (AllowRequest basic_limiter test_ip drained_world))
    = server drained_world.
Proof.
  assert (H : float64.geb (refilled basic_limiter drained_world test_ip) 1 = false)
    by (vm_compute; reflexivity).
  split; [exact H|].
  destruct (AllowRequest_denied_no_write basic_limiter test_ip drained_world H)
    as (Hok & _ & Hsrv & _).
  split; [exact Hok | exact Hsrv].
Defined.

(** C4 on a garbled token count and a missing timestamp. *)
Lemma AllowRequest_read_defaults_witness :
  (exists s, read garbled_world (tokensKey test_ip) = Value s /\
             ParseFloat s = None) /\
  read garbled_world (lastUpdatedKey test_ip) = RedisNil /\
  AllowRequest basic_limiter test_ip garbled_world =
    settle basic_limiter garbled_world test_ip
      (refill basic_limiter test_time (capacity basic_limiter) test_time).
Proof.
  assert (H1 : exists s, read garbled_world (tokensKey test_ip) = Value s /\
                         ParseFloat s = None)
    by (exists "three"; split; vm_compute; reflexivity).
  assert (H2 : read garbled_world (lastUpdatedKey test_ip) = RedisNil)
    by (vm_compute; reflexivity).
  split; [exact H1|]. split; [exact H2|].
  destruct (AllowRequest_read_defaults basic_limiter test_ip garbled_world)
    as (Htok & _ & _).
  rewrite (Htok (or_intror (or_intror H1))).
  unfold lastUpdated_of. rewrite H2. reflexivity.
Defined.

(** C5 on a fresh identifier: 2 is written, between 0 and 3. *)
Lemma written_tokens_range_witness :
  float64.geb (refilled basic_limiter (fresh_world test_time) test_ip) 1 = true /\
  exec_err (server (fresh_world test_time)) = false /\
  (capacity basic_limiter <=? 0x1p53)%float = true /\
  (refilled basic_limiter (fresh_world test_time) test_ip - 1
     <? capacity basic_limiter)%float = true.
Proof.
  assert (H : float64.geb (refilled basic_limiter (fresh_world test_time) test_ip) 1
              = true) by (vm_compute; reflexivity).
  assert (H53 : (capacity basic_limiter <=? 0x1p53)%float = true)
    by (vm_compute; reflexivity).
  split; [exact H|]. split; [reflexivity|]. split; [exact H53|].
  destruct (written_tokens_range basic_limiter test_ip (fresh_world test_time)
              H eq_refl) as (_ & _ & _ & _ & _ & Hlt).
  exact (Hlt H53).
Defined.

(** C6 for the capacity 3 of the repository's test. *)
Lemma first_calls_allowed_witness :
  fst (AllowRequest basic_limiter test_ip
         (calls 0 basic_limiter test_ip (fresh_world test_time))) = true /\
  fst (AllowRequest basic_limiter test_ip
         (calls 1 basic_limiter test_ip (fresh_world test_time))) = true /\
  fst (AllowRequest basic_limiter test_ip
         (calls 2 basic_limiter test_ip (fresh_world test_time))) = true /\
  fst (AllowRequest basic_limiter test_ip
         (calls 3 basic_limiter test_ip (fresh_world test_time))) = false.
Proof.
  assert (Hpf : forall k, 0 <= k < 3 ->
            ParseFloat (FormatFloat (float64.of_int64 k))
            = Some (float64.of_int64 k)).
  { intros k Hk.
    assert (Hc : k = 0 \/ k = 1 \/ k = 2) by lia.
    destruct Hc as [-> | [-> | ->]]; vm_compute; reflexivity. }
  assert (HC : 0 <= 3 <= 2 ^ 53) by (change (2 ^ 53) with 9007199254740992; lia).
  assert (Hcap : capacity basic_limiter = float64.of_int64 3)
    by (vm_compute; reflexivity).
  assert (Hrate : is_finite (refillRate basic_limiter) = true)
    by (vm_compute; reflexivity).
  assert (Hh : healthy (fresh_world test_time) test_ip)
    by (repeat split; reflexivity).
  assert (Hu : unseen (fresh_world test_time) test_ip)
    by (split; vm_compute; reflexivity).
  assert (Hpi : ParseInt (FormatInt (unix_time (fresh_world test_time)))
                = Some (unix_time (fresh_world test_time)))
    by (vm_compute; reflexivity).
  destruct (first_calls_allowed 3 basic_limiter test_ip (fresh_world test_time)
              HC Hcap Hrate Hh Hu Hpf Hpi) as [Hfirst Hlast].
  split; [apply (Hfirst 0%nat); reflexivity|].
  split; [apply (Hfirst 1%nat); reflexivity|].
  split; [apply (Hfirst 2%nat); reflexivity|].
  exact Hlast.
Defined.

(** C7 on a fresh identifier whose commit fails. *)
Lemma AllowRequest_write_failure_is_false_witness :
  float64.geb
    (refilled basic_limiter (break_exec (fresh_world test_time)) test_ip) 1 = true /\
  exec_err (server (break_exec (fresh_world test_time))) = true /\
  fst (AllowRequest basic_limiter test_ip (break_exec (fresh_world test_time)))
    = false.
Proof.
  assert (H : float64.geb
                (refilled basic_limiter (break_exec (fresh_world test_time)) test_ip)
                1 = true) by (vm_compute; reflexivity).
  split; [exact H|]. split; [reflexivity|].
  destruct (AllowRequest_write_failure_is_false basic_limiter test_ip
              (break_exec (fresh_world test_time)) H eq_refl) as (Hok & _).
  exact Hok.
Defined.

(** C9 on a fresh identifier: the two keys are read, and a key of another
    identifier is left alone. *)
Lemma AllowRequest_keys_witness :
  reads (events_of (fresh_world test_time)
           (snd (AllowRequest basic_limiter test_ip (fresh_world test_time)))) =
    [ "rate_limit:ip:192.168.1.100:tokens";
      "rate_limit:ip:192.168.1.100:last_updated" ] /\
  kv (server (snd (AllowRequest basic_limiter test_ip (fresh_world test_time))))
    !! "rate_limit:ip:192.168.1.200:tokens" = None.
Proof.
  destruct (AllowRequest_keys basic_limiter test_ip (fresh_world test_time))
    as (_ & Hreads & _ & Hother).
  split; [exact Hreads|].
  rewrite Hother by discriminate. reflexivity.
Defined.

(** C10 for a capacity of one half. *)
Lemma capacity_below_one_denies_witness :
  (capacity half_limiter <? 1)%float = true /\
  fst (AllowRequest half_limiter test_ip (fresh_world test_time)) = false.
Proof.
  assert (H : (capacity half_limiter <? 1)%float = true) by (vm_compute; reflexivity).
  split; [exact H|].
  destruct (capacity_below_one_denies half_limiter test_ip (fresh_world test_time) H)
    as (_ & Hok & _).
  exact Hok.
Defined.

(** ** Where the specification and the code part *)

(** C5 as stated fails: with a capacity of 2^54 the first call of a fresh
    identifier passes and writes 2^54 tokens, which is the capacity and
    not below it. *)
Lemma written_tokens_reach_capacity :
  let w := fresh_world test_time in
  let w' := snd (AllowRequest huge_limiter test_ip w) in
  fst (AllowRequest huge_limiter test_ip w) = true /\
  batches (events_of w w') =
    [([SetCmd (tokensKey test_ip) (ArgFloat 0x1p54) (10 * Second);
       SetCmd (lastUpdatedKey test_ip) (ArgInt test_time) (10 * Second)], true)] /\
  kv (server w') !! tokensKey test_ip
    = Some (Entry "18014398509481984" (10 * Second)) /\
  capacity huge_limiter = 0x1p54%float /\
  (0x1p54 <? capacity huge_limiter)%float = false.
Proof. vm_compute. repeat split. Qed.

(** C6 as stated fails.  With a capacity of [C = 2^54] the call after the
    first [C] calls passes as well, since the subtraction of one rounds
    back and the bucket never runs out.  And with an infinite refill rate
    the product [0 * Inf] is NaN, so that for the capacity 3 already the
    first call of a fresh identifier is rejected. *)
Lemma calls_beyond_capacity_allowed :
  (capacity huge_limiter = float64.of_int64 (2 ^ 54) /\
   fst (AllowRequest huge_limiter test_ip
          (calls (Z.to_nat (2 ^ 54)) huge_limiter test_ip (fresh_world test_time)))
     = true) /\
  (capacity unbounded_rate_limiter = float64.of_int64 3 /\
   fst (AllowRequest unbounded_rate_limiter test_ip (fresh_world test_time))
     = false).
Proof.
  split; [|split; vm_compute; reflexivity].
  split; [vm_compute; reflexivity|].
  apply (calls_stuck huge_limiter test_ip test_time);
    try (vm_compute; reflexivity).
  apply (unseen_holds huge_limiter test_ip (fresh_world test_time));
    repeat split; reflexivity.
Qed.

(** C7 as stated fails: a commit that fails on an otherwise allowed
    request and a request denied for lack of tokens give the caller the
    same answer. *)
Lemma write_failure_looks_like_denial :
  let failing := break_exec (fresh_world test_time) in
  float64.geb (refilled basic_limiter failing test_ip) 1 = true /\
  exec_err (server failing) = true /\
  float64.geb (refilled basic_limiter drained_world test_ip) 1 = false /\
  fst (AllowRequest basic_limiter test_ip failing)
    = fst (AllowRequest basic_limiter test_ip drained_world).
Proof. vm_compute. repeat split. Qed.

(** C8 as stated fails: a negative capacity and a negative TTL give a
    limiter, which then rejects at call time; and a zero TTL with a
    positive capacity gives a limiter that lets a request pass and stores
    its keys with that TTL. *)
Lemma NewRedisTokenBucket_accepts_invalid :
  let bad := NewRedisTokenBucket test_client (-1) 1 (-5 * Second) in
  let zero_ttl := NewRedisTokenBucket test_client 3 1 0 in
  let w := fresh_world test_time in
  (capacity bad <=? 0)%float = true /\ ttl bad <= 0 /\
  fst (AllowRequest bad test_ip w) = false /\
  ttl zero_ttl <= 0 /\
  fst (AllowRequest zero_ttl test_ip w) = true /\
  kv (server (snd (AllowRequest zero_ttl test_ip w))) !! tokensKey test_ip
    = Some (Entry "2" 0).
Proof. vm_compute. repeat split; discriminate. Qed.

(** ** The further properties on concrete worlds *)

(** X1 on the addresses of the two tests. *)
Lemma keys_of_identifiers_disjoint_witness :
  test_ip <> other_ip /\
  getIPKey basic_limiter test_ip +:+ ":tokens"
    <> getIPKey basic_limiter other_ip +:+ ":tokens" /\
  getIPKey basic_limiter test_ip +:+ ":last_updated"
    <> getIPKey basic_limiter other_ip +:+ ":tokens".
Proof.
  assert (H : test_ip <> other_ip) by discriminate.
  split; [exact H|].
  destruct (keys_of_identifiers_disjoint basic_limiter test_ip other_ip H)
    as (_ & H1 & _ & _ & H2).
  split; [exact H1 | exact H2].
Defined.

(** X2: a call for [test_ip] leaves the decision for [other_ip] as it was. *)
Lemma AllowRequest_isolated_witness :
  test_ip <> other_ip /\
  fst (AllowRequest basic_limiter other_ip
         (snd (AllowRequest basic_limiter test_ip (fresh_world test_time))))
    = fst (AllowRequest basic_limiter other_ip (fresh_world test_time)).
Proof.
  assert (H : test_ip <> other_ip) by discriminate.
  split; [exact H|].
  destruct (AllowRequest_isolated basic_limiter basic_limiter test_ip other_ip
              (fresh_world test_time) H) as (_ & _ & _ & H4).
  exact H4.
Defined.

(** X4 on an emptied bucket: the fourth call in a row is denied as well. *)
Lemma denied_stays_denied_witness :
  float64.geb (refilled basic_limiter drained_world test_ip) 1 = false /\
  fst (AllowRequest basic_limiter test_ip
         (calls 3 basic_limiter test_ip drained_world)) = false /\
  server (calls 3 basic_limiter test_ip drained_world) = server drained_world.
Proof.
  assert (H : float64.geb (refilled basic_limiter drained_world test_ip) 1 = false)
    by (vm_compute; reflexivity).
  split; [exact H|].
  destruct (denied_stays_denied basic_limiter test_ip drained_world H 3%nat)
    as (H1 & H2 & _).
  split; [exact H1 | exact H2].
Defined.

(** X5: an hour later the NaN still denies. *)
Lemma nan_tokens_lock_out_witness :
  tokens_of basic_limiter nan_world test_ip = nan /\
  fst (AllowRequest basic_limiter test_ip (sleep 3600 nan_world)) = false /\
  server (snd (AllowRequest basic_limiter test_ip (sleep 3600 nan_world)))
    = server nan_world.
Proof.
  assert (H : tokens_of basic_limiter nan_world test_ip = nan)
    by (vm_compute; reflexivity).
  split; [exact H|].
  destruct (nan_tokens_lock_out basic_limiter test_ip nan_world H 3600)
    as (H1 & H2 & _).
  split; [exact H1 | exact H2].
Defined.

(** X6 with a capacity of 2.5: the first call leaves 1.5 tokens. *)
Lemma first_request_allowed_witness :
  float64.geb (capacity fractional_limiter) 1 = true /\
  is_finite (refillRate fractional_limiter) = true /\
  healthy (fresh_world test_time) test_ip /\
  unseen (fresh_world test_time) test_ip /\
  fst (AllowRequest fractional_limiter test_ip (fresh_world test_time)) = true /\
  kv (server (snd (AllowRequest fractional_limiter test_ip (fresh_world test_time))))
    !! tokensKey test_ip
    = Some (Entry (FormatFloat (capacity fractional_limiter - 1)%float)
              (ttl fractional_limiter)).
Proof.
  assert (Hc : float64.geb (capacity fractional_limiter) 1 = true)
    by (vm_compute; reflexivity).
  assert (Hr : is_finite (refillRate fractional_limiter) = true)
    by (vm_compute; reflexivity).
  assert (Hh : healthy (fresh_world test_time) test_ip)
    by (repeat split; reflexivity).
  assert (Hu : unseen (fresh_world test_time) test_ip)
    by (split; vm_compute; reflexivity).
  destruct (first_request_allowed fractional_limiter test_ip
              (fresh_world test_time) Hc Hr Hh Hu) as (H1 & H2 & _).
  repeat (split; [assumption|]). exact H2.
Defined.

(** X7 as in the repository's first test: two seconds after the bucket is
    emptied, two calls pass and the third is denied. *)
Lemma waiting_refills_whole_tokens_witness :
  fst (AllowRequest basic_limiter test_ip
         (calls 0 basic_limiter test_ip (sleep 2 drained_world))) = true /\
  fst (AllowRequest basic_limiter test_ip
         (calls 1 basic_limiter test_ip (sleep 2 drained_world))) = true /\
  fst (AllowRequest basic_limiter test_ip
         (calls 2 basic_limiter test_ip (sleep 2 drained_world))) = false.
Proof.
  assert (Hcap : capacity basic_limiter = float64.of_int64 3)
    by (vm_compute; reflexivity).
  assert (Hrate : refillRate basic_limiter = float64.of_int64 1)
    by (vm_compute; reflexivity).
  assert (HC : 0 <= 3 <= 2 ^ 53) by (change (2 ^ 53) with 9007199254740992; lia).
  assert (HR : 0 <= 1 <= 2 ^ 53) by (change (2 ^ 53) with 9007199254740992; lia).
  assert (Ht : 0 <= 0) by lia.
  assert (Hs : 0 <= 2 <= 2 ^ 53) by (change (2 ^ 53) with 9007199254740992; lia).
  assert (Hsum : 0 + 2 * 1 < 2 ^ 53)
    by (change (2 ^ 53) with 9007199254740992; lia).
  assert (Hh : healthy (sleep 2 drained_world) test_ip)
    by (repeat split; reflexivity).
  assert (Htok : tokens_of basic_limiter (sleep 2 drained_world) test_ip
                 = float64.of_int64 0) by (vm_compute; reflexivity).
  assert (Hlu : unix_time (sleep 2 drained_world)
                - lastUpdated_of (sleep 2 drained_world) test_ip = 2)
    by (vm_compute; reflexivity).
  assert (Hpf : forall k, 0 <= k < 3 ->
            ParseFloat (FormatFloat (float64.of_int64 k))
            = Some (float64.of_int64 k)).
  { intros k Hk.
    assert (Hc : k = 0 \/ k = 1 \/ k = 2) by lia.
    destruct Hc as [-> | [-> | ->]]; vm_compute; reflexivity. }
  assert (Hpi : ParseInt (FormatInt (unix_time (sleep 2 drained_world)))
                = Some (unix_time (sleep 2 drained_world)))
    by (vm_compute; reflexivity).
  destruct (waiting_refills_whole_tokens 3 1 0 2 basic_limiter test_ip
              (sleep 2 drained_world)
              Hcap Hrate HC HR Ht Hs Hsum Hh Htok Hlu Hpf Hpi) as [Hfirst Hlast].
  split; [apply (Hfirst 0%nat); reflexivity|].
  split; [apply (Hfirst 1%nat); reflexivity|].
  exact Hlast.
Defined.

(** X9: a full bucket whose commit fails, next to an emptied one. *)
Lemma store_failure_answered_as_rejection_witness :
  let c := new_context api_request in
  let w := break_exec (fresh_world test_time) in
  String.eqb (client_ip (Request c)) "" = false /\
  float64.geb (refilled basic_limiter w (client_ip (Request c))) 1 = true /\
  exec_err (server w) = true /\
  float64.geb (refilled basic_limiter drained_world (client_ip (Request c))) 1
    = false /\
  written (fst (RateLimitMiddleware basic_limiter "https://example.com/welcome"
                  "Rate limit exceeded. Please try again later." c w)) =
    written (fst (RateLimitMiddleware basic_limiter "https://example.com/welcome"
                    "Rate limit exceeded. Please try again later." c drained_world)).
Proof.
  intros c w.
  assert (Hip : String.eqb (client_ip (Request c)) "" = false) by reflexivity.
  assert (Hge : float64.geb (refilled basic_limiter w (client_ip (Request c))) 1
                = true) by (vm_compute; reflexivity).
  assert (He : exec_err (server w) = true) by reflexivity.
  assert (Hlt : float64.geb
                  (refilled basic_limiter drained_world (client_ip (Request c))) 1
                = false) by (vm_compute; reflexivity).
  destruct (store_failure_answered_as_rejection basic_limiter
              "https://example.com/welcome"
              "Rate limit exceeded. Please try again later."
              c w drained_world Hip Hge He Hlt) as (_ & H2 & _).
  repeat (split; [assumption|]). exact H2.
Defined.

(** X11: the first health check of an address is redirected and leaves two
    tokens of three. *)
Lemma health_check_spends_token_witness :
  String.eqb (client_ip health_request) "" = false /\
  float64.geb
    (refilled basic_limiter (fresh_world test_time) (client_ip health_request)) 1
    = true /\
  exec_err (server (fresh_world test_time)) = false /\
  written
    (fst (run_handlers
            (health_chain basic_limiter "https://example.com/welcome"
               "Rate limit exceeded. Please try again later." false)
            (new_context health_request) (fresh_world test_time)))
    = [Redirect 307 "https://example.com/welcome"].
Proof.
  assert (Hip : String.eqb (client_ip health_request) "" = false) by reflexivity.
  assert (Hge : float64.geb
                  (refilled basic_limiter (fresh_world test_time)
                     (client_ip health_request)) 1 = true)
    by (vm_compute; reflexivity).
  assert (He : exec_err (server (fresh_world test_time)) = false) by reflexivity.
  destruct (health_check_spends_token basic_limiter "https://example.com/welcome"
              "Rate limit exceeded. Please try again later." false
              health_request (fresh_world test_time) Hip Hge He) as (H1 & _).
  repeat (split; [assumption|]). exact H1.
Defined.

(** X12: TTL_SECONDS is missing and RATE_LIMIT is no number; the missing
    variable is what stops [main]. *)
Lemma first_missing_variable_is_fatal_witness :
  find (fun k => String.eqb (Getenv incomplete_env k) "") required_env
    = Some "TTL_SECONDS" /\
  main_setup incomplete_env false = Fatal (MissingEnv "TTL_SECONDS").
Proof.
  assert (H : find (fun k => String.eqb (Getenv incomplete_env k) "") required_env
              = Some "TTL_SECONDS") by (vm_compute; reflexivity).
  split; [exact H|].
  exact (first_missing_variable_is_fatal incomplete_env false "TTL_SECONDS" H).
Defined.

(** X14 for a TTL of ten seconds. *)
Lemma main_setup_ttl_witness :
  main_setup test_env false = Started test_setup /\
  ParseInt (Getenv test_env "TTL_SECONDS") = Some 10 /\
  (ttl (setup_limiter test_setup) = 10 * Second <->
   -9223372036 <= 10 <= 9223372036).
Proof.
  assert (Hs : main_setup test_env false = Started test_setup)
    by (vm_compute; reflexivity).
  assert (Hn : ParseInt (Getenv test_env "TTL_SECONDS") = Some 10)
    by (vm_compute; reflexivity).
  split; [exact Hs|]. split; [exact Hn|].
  exact (main_setup_ttl test_env false test_setup 10 Hs Hn).
Defined.

(** X15 for a RATE_LIMIT of 0.5. *)
Lemma low_rate_limit_rejects_everyone_witness :
  main_setup low_env false = Started low_setup /\
  ParseFloat (Getenv low_env "RATE_LIMIT") = Some 0.5%float /\
  float64.geb 0.5 1 = false /\
  String.eqb (client_ip api_request) "" = false /\
  written
    (fst (run_handlers
            (api_chain (setup_limiter low_setup) (setup_successURL low_setup)
               (setup_failureMessage low_setup))
            (new_context api_request) (fresh_world test_time)))
    = [JSON 429 (<["error" := "Rate limit exceeded. Please try again later."]>
                   {[ "ip" := client_ip api_request ]})].
Proof.
  assert (Hs : main_setup low_env false = Started low_setup)
    by (vm_compute; reflexivity).
  assert (Hc : ParseFloat (Getenv low_env "RATE_LIMIT") = Some 0.5%float)
    by (vm_compute; reflexivity).
  assert (Hlow : float64.geb 0.5 1 = false) by (vm_compute; reflexivity).
  assert (Hip : String.eqb (client_ip api_request) "" = false) by reflexivity.
  destruct (low_rate_limit_rejects_everyone low_env false low_setup 0.5
              api_request (fresh_world test_time) Hs Hc Hlow Hip) as (H1 & _).
  repeat (split; [assumption|]). exact H1.
Defined.

(** X16 as in the repository's second test: six seconds after a bucket of
    two was emptied, expired or not, the call passes. *)
Lemma expiry_after_full_refill_witness :
  fst (AllowRequest ttl_limiter other_ip (sleep 6 drained_other)) = true /\
  fst (AllowRequest ttl_limiter other_ip (expire other_ip (sleep 6 drained_other)))
    = true.
Proof.
  assert (Hcap : capacity ttl_limiter = float64.of_int64 2)
    by (vm_compute; reflexivity).
  assert (Hrate : refillRate ttl_limiter = float64.of_int64 1)
    by (vm_compute; reflexivity).
  assert (HC : 1 <= 2 <= 2 ^ 53) by (change (2 ^ 53) with 9007199254740992; lia).
  assert (HR : 0 <= 1 <= 2 ^ 53) by (change (2 ^ 53) with 9007199254740992; lia).
  assert (Ht : 0 <= 0) by lia.
  assert (Hs : 0 <= 6 <= 2 ^ 53) by (change (2 ^ 53) with 9007199254740992; lia).
  assert (Hsum : 2 <= 0 + 6 * 1 < 2 ^ 53)
    by (change (2 ^ 53) with 9007199254740992; lia).
  assert (Hh : healthy (sleep 6 drained_other) other_ip)
    by (repeat split; reflexivity).
  assert (Htok : tokens_of ttl_limiter (sleep 6 drained_other) other_ip
                 = float64.of_int64 0) by (vm_compute; reflexivity).
  assert (Hlu : unix_time (sleep 6 drained_other)
                - lastUpdated_of (sleep 6 drained_other) other_ip = 6)
    by (vm_compute; reflexivity).
  destruct (expiry_after_full_refill 2 1 0 6 ttl_limiter other_ip
              (sleep 6 drained_other)
              Hcap Hrate HC HR Ht Hs Hsum Hh Htok Hlu) as (H1 & H2 & _).
  split; [exact H1 | exact H2].
Defined.
